(** * p1204_3/utils.py: helper functions of the bitstream mode 3 P.1204.3 model

    A shallow embedding of [src/p1204_3/utils.py] and the properties of its
    command runner, file opener, media prober, JSON persistence and
    assertion helper.

    Data model.
    - A Python [str] is a list of Unicode code points ([N]); [bytes] is a
      list of byte values ([N] below 256).
    - Python values that travel through [json] and through the result of
      [ffprobe] are the inductive [pyval]; floating-point numbers are not
      members of it.  Integers are unbounded, and the limit recent Python
      versions put on the length of an integer literal is not modelled.
    - Effects are explicit: a computation is a function from the state of
      the process ([world]: standard output, log records, spawned
      processes, files) to an outcome and a new state.  What the operating
      system decides (which programs exist, what a process prints and
      returns) is a record of oracles, [env].
    - The library functions the module calls ([shlex.quote], [repr],
      UTF-8 decoding, [json.loads], [json.dump], integer division and
      [round]) are modelled from their CPython behaviour; [eval] is
      modelled on texts of the form [int/int] only. *)

From Stdlib Require Import ZArith NArith Lia List Ascii String Bool.
From stdpp Require Import base option list gmap.

Local Open Scope Z_scope.

(** ** Strings and bytes *)

Definition codepoint := N.
Definition str := list codepoint.
Definition bytes := list N.

(** A string literal of the source. *)
Definition lit (s : string) : str :=
  map N_of_ascii (list_ascii_of_string s).

Definition nl : str := [10%N].

(** The double and the single quote character. *)
Definition dq : codepoint := 34%N.
Definition sq : codepoint := 39%N.

(** [sep.join(parts)] *)
Fixpoint join (sep : str) (parts : list str) : str :=
  match parts with
  | [] => []
  | [p] => p
  | p :: rest => p ++ sep ++ join sep rest
  end.

Fixpoint starts_with (p s : str) : bool :=
  match p, s with
  | [], _ => true
  | _ :: _, [] => false
  | a :: p', b :: s' => N.eqb a b && starts_with p' s'
  end.

(** [needle in hay] on strings: a substring test. *)
Fixpoint contains (needle hay : str) : bool :=
  starts_with needle hay ||
  match hay with
  | [] => false
  | _ :: hay' => contains needle hay'
  end.

(** [s.replace(old, new)] for a one-character [old]. *)
Definition replace_char (old : codepoint) (new : str) (s : str) : str :=
  flat_map (fun c => if N.eqb c old then new else [c]) s.

Definition in_range (lo hi c : N) : bool := (N.leb lo c && N.leb c hi)%N.

(** Code point of a character literal. *)
Definition chr (a : ascii) : codepoint := N_of_ascii a.

Definition is_digit (c : codepoint) : bool := in_range (chr "0") (chr "9") c.

(** [\w] under [re.ASCII]: letters, digits and the underscore. *)
Definition is_word_ascii (c : codepoint) : bool :=
  in_range (chr "a") (chr "z") c || in_range (chr "A") (chr "Z") c
  || is_digit c || N.eqb c (chr "_").

(** ** Exceptions, outcomes and the state of the process *)

Inductive exn :=
| Exception (msg : str)
| SystemExit (code : Z)
| CalledProcessError (returncode : Z) (cmd : list str) (output : bytes)
| SubprocessError
| OSError (msg : str)
| UnicodeDecodeError
| ValueError (msg : str)
| TypeError
| KeyError (key : str)
| AttributeError
| ZeroDivisionError
| OverflowError
| SyntaxError
| JSONDecodeError.

(** The outcome of a call: a value, a raised exception, or [Beyond] when
    the run leaves the part of Python that is modelled here (arbitrary
    text handed to [eval], floating-point literals in JSON text). *)
Inductive result (A : Type) :=
| Ok (a : A)
| Raise (e : exn)
| Beyond.
Arguments Ok {A} a.
Arguments Raise {A} e.
Arguments Beyond {A}.

Definition rbind {A B} (r : result A) (k : A -> result B) : result B :=
  match r with
  | Ok a => k a
  | Raise e => Raise e
  | Beyond => Beyond
  end.

Notation "'let?' x ':=' r 'in' k" := (rbind r (fun x => k))
  (at level 10, x pattern, r at level 100, k at level 200).

(** Severity levels of [logging]. *)
Inductive level := CRITICAL | ERROR | WARNING | INFO | DEBUG.

Record world := World {
  stdout : str;                      (* text printed so far *)
  logged : list (level * str);       (* records handed to logging *)
  spawned : list (list str);         (* argument lists of processes run *)
  files : gmap str str               (* regular files and their text *)
}.

(** What running a command gives: the process could not be started, or it
    ran and left an exit status and its merged stdout and stderr. *)
Inductive proc_outcome :=
| SpawnFailed (e : exn)
| Exited (status : Z) (output : bytes).

Record env := Env {
  which : str -> option str;         (* shutil.which *)
  exec : list str -> proc_outcome;   (* the operating system running argv *)
  can_create : str -> bool;          (* open(path, "w") is permitted *)
  isprintable : codepoint -> bool    (* str.isprintable outside ASCII *)
}.

Definition M (A : Type) : Type := world -> result A * world.

Definition ret {A} (a : A) : M A := fun w => (Ok a, w).
Definition raise {A} (e : exn) : M A := fun w => (Raise e, w).
Definition lift {A} (r : result A) : M A := fun w => (r, w).
Definition bind {A B} (m : M A) (k : A -> M B) : M B :=
  fun w => match m w with
           | (Ok a, w') => k a w'
           | (Raise e, w') => (Raise e, w')
           | (Beyond, w') => (Beyond, w')
           end.

(** [try: m except ...: h]; a handler that does not match re-raises. *)
Definition try_except {A} (m : M A) (h : exn -> M A) : M A :=
  fun w => match m w with
           | (Raise e, w') => h e w'
           | r => r
           end.

Notation "'let*' x ':=' m 'in' k" := (bind m (fun x => k))
  (at level 10, x pattern, m at level 100, k at level 200).
Notation "m ';;' k" := (bind m (fun _ => k))
  (at level 100, k at level 200, right associativity).

(** [print(text)] *)
Definition print (text : str) : M unit :=
  fun w => (Ok tt, World (stdout w ++ text ++ nl) (logged w) (spawned w) (files w)).

(** [os.path.isfile(path)] *)
Definition isfile (path : str) : M bool :=
  fun w => (Ok (bool_decide (is_Some (files w !! path))), w).

(** ** Module-level set-up: coloured level names *)

Definition esc : codepoint := 27%N.

Inductive color :=
| black | red | green | yellow | blue | magenta | cyan | white | end_code.

Definition color_codes (c : color) : str :=
  match c with
  | black => esc :: lit "[1;30m"
  | red => esc :: lit "[1;31m"
  | green => esc :: lit "[1;32m"
  | yellow => esc :: lit "[1;33m"
  | blue => esc :: lit "[1;34m"
  | magenta => esc :: lit "[1;35m"
  | cyan => esc :: lit "[1;36m"
  | white => esc :: lit "[1;37m"
  | end_code => esc :: lit "[1;0m"
  end.

(** The level names after the five [logging.addLevelName] calls. *)
Definition level_name (l : level) : str :=
  match l with
  | CRITICAL => color_codes red ++ lit "CRITICAL" ++ color_codes end_code
  | ERROR => color_codes red ++ lit "ERROR" ++ color_codes end_code
  | WARNING => color_codes yellow ++ lit "WARNING" ++ color_codes end_code
  | INFO => color_codes green ++ lit "INFO" ++ color_codes end_code
  | DEBUG => color_codes blue ++ lit "DEBUG" ++ color_codes end_code
  end.

(** [logging.error(msg)] *)
Definition logging_error (msg : str) : M unit :=
  fun w => (Ok tt, World (stdout w) (logged w ++ [(ERROR, msg)]) (spawned w) (files w)).

(** [sys.exit(code)] raises [SystemExit]; uncaught, it ends the process
    with that exit status. *)
Definition sys_exit {A} (code : Z) : M A := raise (SystemExit code).

(** The exit status of a process whose main thread ends with [r]. *)
Definition exit_status {A} (r : result A) : option Z :=
  match r with
  | Ok _ => Some 0
  | Raise (SystemExit code) => Some code
  | Raise _ => Some 1
  | Beyond => None
  end.

(** ** Library functions used by the command runner *)

(** [shlex.quote(s)]: unsafe is any character outside
    [[\w@%+=:,./-]] (ASCII). *)
Definition is_shell_safe (c : codepoint) : bool :=
  is_word_ascii c || existsb (N.eqb c) (lit "@%+=:,./-").

Definition shlex_quote (s : str) : str :=
  match s with
  | [] => [sq; sq]
  | _ =>
      if forallb is_shell_safe s then s
      else [sq] ++ replace_char sq [sq; dq; sq; dq; sq] s ++ [sq]
  end.

Definition hex_digit (d : N) : codepoint :=
  (if d <? 10 then chr "0" + d else chr "a" + (d - 10))%N.

(** [width] lowercase hexadecimal digits of [n], most significant first. *)
Fixpoint hex (width : nat) (n : N) : str :=
  match width with
  | O => []
  | S w => hex w (n / 16)%N ++ [hex_digit (n mod 16)%N]
  end.

(** [repr(s)] of a string. *)
Definition repr_char (E : env) (quote c : codepoint) : str :=
  if N.eqb c quote || N.eqb c (chr "\") then [chr "\"; c]
  else if N.eqb c 9 then lit "\t"
  else if N.eqb c 10 then lit "\n"
  else if N.eqb c 13 then lit "\r"
  else if (c <? 32)%N || N.eqb c 127 then lit "\x" ++ hex 2 c
  else if (c <? 127)%N then [c]
  else if isprintable E c then [c]
  else if (c <=? 255)%N then lit "\x" ++ hex 2 c
  else if (c <=? 65535)%N then lit "\u" ++ hex 4 c
  else lit "\U" ++ hex 8 c.

Definition repr_str (E : env) (s : str) : str :=
  let quote :=
    if existsb (N.eqb sq) s && negb (existsb (N.eqb dq) s) then dq else sq in
  [quote] ++ flat_map (repr_char E quote) s ++ [quote].

(** [str(l)] of a list of strings, as an f-string renders [{cmd}]. *)
Definition str_of_list (E : env) (l : list str) : str :=
  lit "[" ++ join (lit ", ") (map (repr_str E) l) ++ lit "]".

Definition is_cont (b : N) : bool := in_range 128 191 b.

(** [b.decode("utf-8")], strict. *)
Fixpoint utf8_decode (b : bytes) : option str :=
  match b with
  | [] => Some []
  | b0 :: r0 =>
      if (b0 <? 128)%N then cons b0 <$> utf8_decode r0
      else if in_range 194 223 b0 then
        match r0 with
        | b1 :: r1 =>
            if is_cont b1
            then cons ((b0 - 192) * 64 + (b1 - 128))%N <$> utf8_decode r1
            else None
        | _ => None
        end
      else if in_range 224 239 b0 then
        match r0 with
        | b1 :: b2 :: r2 =>
            if in_range (if N.eqb b0 224 then 160 else 128)
                        (if N.eqb b0 237 then 159 else 191) b1 && is_cont b2
            then cons ((b0 - 224) * 4096 + (b1 - 128) * 64 + (b2 - 128))%N
                   <$> utf8_decode r2
            else None
        | _ => None
        end
      else if in_range 240 244 b0 then
        match r0 with
        | b1 :: b2 :: b3 :: r3 =>
            if in_range (if N.eqb b0 240 then 144 else 128)
                        (if N.eqb b0 244 then 143 else 191) b1
               && is_cont b2 && is_cont b3
            then cons ((b0 - 240) * 262144 + (b1 - 128) * 4096
                       + (b2 - 128) * 64 + (b3 - 128))%N <$> utf8_decode r3
            else None
        | _ => None
        end
      else None
  end.

Definition decode (b : bytes) : result str :=
  match utf8_decode b with
  | Some s => Ok s
  | None => Raise UnicodeDecodeError
  end.

(** [subprocess.check_output(cmd, stderr=subprocess.STDOUT)] *)
Definition check_output (E : env) (cmd : list str) : M bytes :=
  fun w =>
    match exec E cmd with
    | SpawnFailed e => (Raise e, w)
    | Exited status output =>
        let w' := World (stdout w) (logged w) (spawned w ++ [cmd]) (files w) in
        if status =? 0 then (Ok output, w')
        else (Raise (CalledProcessError status cmd output), w')
    end.

(** ** utils.py *)

(** [run_cmd(cmd, dry_run=False, verbose=False)]; [None] is the value of
    the bare [return] of a dry run. *)
Definition run_cmd (E : env) (cmd : list str) (dry_run verbose : bool)
  : M (option str) :=
  let run : M (option str) :=
    let* output :=
      try_except
        (let* raw := check_output E cmd in lift (decode raw))
        (fun e =>
           match e with
           | CalledProcessError _ _ output =>
               let* text := lift (decode output) in
               raise (Exception (lit "Nonzero return status running command "
                                 ++ str_of_list E cmd ++ lit ":" ++ nl ++ text))
           | SubprocessError =>
               (* a bare SubprocessError has no [output] attribute *)
               raise AttributeError
           | _ => raise e
           end) in
    ret (Some output) in
  if dry_run || verbose then
    print (join (lit " ") (map shlex_quote cmd));;
    if dry_run then ret None else run
  else run.

(** [assert_msg(check, fail_message)] *)
Definition assert_msg (check : bool) (fail_message : str) : M unit :=
  if negb check then
    logging_error fail_message;;
    sys_exit 0
  else ret tt.

(** [assert_file(filename, fail_message)] *)
Definition assert_file (filename fail_message : str) : M unit :=
  let* present := isfile filename in
  assert_msg present fail_message.

(** The three ways [file_open] opens a file. *)
Inductive opener := builtin_open | bz2_open | gzip_open.

Record open_call := OpenCall {
  oc_opener : opener;
  oc_filename : str;
  oc_mode : str
}.

(** [file_open(filename, mode="r")]: the library call it returns the
    result of. *)
Definition file_open (filename mode : str) : open_call :=
  if contains (lit "bz2") filename then
    OpenCall bz2_open filename (mode ++ lit "t")
  else if contains (lit "gz") filename then
    OpenCall gzip_open filename (mode ++ lit "t")
  else OpenCall builtin_open filename mode.

Definition file_open_default (filename : str) : open_call :=
  file_open filename (lit "r").

Inductive handle_kind := TextHandle | BinaryHandle.

(** What [bz2.open] and [gzip.open] make of their mode argument before
    they touch the file: text and binary together are refused, and the
    handle is wrapped for text exactly when the mode has a [t]. *)
Definition compressed_handle (mode : str) : result handle_kind :=
  if contains (lit "t") mode then
    if contains (lit "b") mode then Raise (ValueError (lit "Invalid mode"))
    else Ok TextHandle
  else Ok BinaryHandle.

(** ** Python values *)

#[warnings="-register-all"]
Inductive pyval :=
| PNone
| PBool (b : bool)
| PInt (i : Z)
| PStr (s : str)
| PList (l : list pyval)
| PTuple (l : list pyval)
| PDict (items : list (pyval * pyval)).

Fixpoint str_eqb (a b : str) : bool :=
  match a, b with
  | [], [] => true
  | x :: a', y :: b' => N.eqb x y && str_eqb a' b'
  | _, _ => false
  end.

(** [a == b].  A dict is its items in insertion order; equality of dicts
    does not look at the order. *)
Fixpoint py_eq (a b : pyval) {struct a} : bool :=
  let seq_eq :=
    fix seq_eq (xs ys : list pyval) {struct xs} : bool :=
      match xs, ys with
      | [], [] => true
      | x :: xs', y :: ys' => py_eq x y && seq_eq xs' ys'
      | _, _ => false
      end in
  match a, b with
  | PNone, PNone => true
  | PBool x, PBool y => Bool.eqb x y
  | PBool x, PInt y => Z.b2z x =? y
  | PInt x, PBool y => x =? Z.b2z y
  | PInt x, PInt y => x =? y
  | PStr x, PStr y => str_eqb x y
  | PList xs, PList ys => seq_eq xs ys
  | PTuple xs, PTuple ys => seq_eq xs ys
  | PDict xs, PDict ys =>
      (length xs =? length ys)%nat &&
      (fix all_in (xs : list (pyval * pyval)) : bool :=
         match xs with
         | [] => true
         | (k, v) :: xs' =>
             (fix find (ys : list (pyval * pyval)) : bool :=
                match ys with
                | [] => false
                | (k', v') :: ys' => if py_eq k k' then py_eq v v' else find ys'
                end) ys
             && all_in xs'
         end) xs
  | _, _ => false
  end.

(** Dict operations on the items. *)
Definition items := list (pyval * pyval).

Fixpoint dict_lookup (k : pyval) (d : items) : option pyval :=
  match d with
  | [] => None
  | (k', v) :: d' => if py_eq k' k then Some v else dict_lookup k d'
  end.

(** [d[k] = v]: an existing key keeps its place. *)
Fixpoint dict_set (k v : pyval) (d : items) : items :=
  match d with
  | [] => [(k, v)]
  | (k', v') :: d' =>
      if py_eq k' k then (k', v) :: d' else (k', v') :: dict_set k v d'
  end.

Definition dict_keys (d : items) : list pyval := map fst d.

(** [obj[key]] *)
Definition getitem (obj key : pyval) : result pyval :=
  match obj with
  | PDict d =>
      match dict_lookup key d with
      | Some v => Ok v
      | None => match key with
                | PStr k => Raise (KeyError k)
                | _ => Raise (KeyError [])
                end
      end
  | PList l | PTuple l =>
      match key with
      | PInt _ | PBool _ =>
          (* not used by utils.py, whose subscripts are all strings *)
          Beyond
      | _ => Raise TypeError
      end
  | PStr _ =>
      match key with
      | PInt _ | PBool _ => Beyond
      | _ => Raise TypeError
      end
  | _ => Raise TypeError
  end.

(** [key in obj] *)
Definition py_in (key obj : pyval) : result bool :=
  match obj with
  | PDict d => Ok (match dict_lookup key d with Some _ => true | None => false end)
  | PList l | PTuple l => Ok (existsb (fun x => py_eq x key) l)
  | PStr s =>
      match key with
      | PStr k => Ok (contains k s)
      | _ => Raise TypeError
      end
  | _ => Raise TypeError
  end.

(** The values a [for] loop over [obj] visits. *)
Definition py_iter (obj : pyval) : result (list pyval) :=
  match obj with
  | PList l | PTuple l => Ok l
  | PDict d => Ok (dict_keys d)
  | PStr s => Ok (map (fun c => PStr [c]) s)
  | _ => Raise TypeError
  end.

(** [obj.get(key, default)] *)
Definition py_get (obj key default : pyval) : result pyval :=
  match obj with
  | PDict d => Ok (match dict_lookup key d with Some v => v | None => default end)
  | _ => Raise AttributeError
  end.

(** ** Numbers: integer literals, true division and [round] *)

(** Value of a run of decimal digits, most significant first. *)
Definition digits_value (ds : str) : Z :=
  fold_left (fun acc c => 10 * acc + Z.of_N (c - chr "0")) ds 0.

(** Decimal digits of a natural number, most significant first; [fuel]
    bounds the number of digits. *)
Fixpoint digits_of (fuel : nat) (n : N) : str :=
  match fuel with
  | O => []
  | S f =>
      (if (n <? 10)%N then [] else digits_of f (n / 10)%N)
      ++ [(chr "0" + n mod 10)%N]
  end.

(** [str(i)] of an integer. *)
Definition int_str (i : Z) : str :=
  let n := Z.to_N (Z.abs i) in
  (if i <? 0 then lit "-" else []) ++ digits_of (S (N.to_nat (N.log2 n))) n.

(** A binary64 number that is finite: [mant * 2 ^ expo]. *)
Record float := Float { mant : Z; expo : Z }.

(** [n / d] rounded to an integer, a tie going to the even neighbour
    ([0 < d]). *)
Definition round_half_even (n d : Z) : Z :=
  let q := n / d in
  let r := n mod d in
  if 2 * r <? d then q
  else if d <? 2 * r then q + 1
  else if Z.even q then q else q + 1.

(** [a / b] on integers: the quotient correctly rounded to binary64
    (53 significant bits, exponents from -1074, round half to even). *)
Definition int_truediv (a b : Z) : result float :=
  if b =? 0 then Raise ZeroDivisionError
  else if a =? 0 then Ok (Float 0 0)
  else
    let n := Z.abs a in
    let d := Z.abs b in
    let ln := Z.log2 n in
    let ld := Z.log2 d in
    (* the exponent e with 2^52 <= n / (d * 2^e) < 2^53 *)
    let e1 := if d * 2 ^ ln <=? n * 2 ^ ld then ln - ld - 52 else ln - ld - 53 in
    let e := Z.max e1 (-1074) in
    let m := if 0 <=? e then round_half_even n (d * 2 ^ e)
             else round_half_even (n * 2 ^ (- e)) d in
    if (971 <? e) || ((e =? 971) && (m =? 2 ^ 53)) then Raise OverflowError
    else Ok (Float (Z.sgn a * Z.sgn b * m) e).

(** [round(x)] of a float, without [ndigits]: an integer, half to even. *)
Definition round_float (x : float) : Z :=
  if 0 <=? expo x then mant x * 2 ^ expo x
  else round_half_even (mant x) (2 ^ (- expo x)).

(** An integer literal with an optional minus sign in front: [None] when
    the text is something else, [Some (Raise SyntaxError)] for a literal
    with a leading zero digit, [Some (Ok i)] otherwise. *)
Definition int_literal (s : str) : option (result Z) :=
  let '(neg, ds) :=
    match s with
    | c :: r => if N.eqb c (chr "-") then (true, r) else (false, s)
    | [] => (false, s)
    end in
  match ds with
  | [] => None
  | d0 :: r =>
      if forallb is_digit ds then
        if N.eqb d0 (chr "0") && negb (forallb (N.eqb (chr "0")) r)
        then Some (Raise SyntaxError)
        else Some (Ok (if neg then - digits_value ds else digits_value ds))
      else None
  end.

(** [s.split(sep)] at a one-character separator. *)
Fixpoint split_on (sep : codepoint) (s : str) : list str :=
  match s with
  | [] => [[]]
  | c :: r =>
      if N.eqb c sep then [] :: split_on sep r
      else match split_on sep r with
           | p :: ps => (c :: p) :: ps
           | [] => [[c]]
           end
  end.

(** [eval(text)] for a text of the form [int/int].  Anything else may run
    arbitrary code and is [Beyond]. *)
Definition eval_ratio (text : str) : result float :=
  match split_on (chr "/") text with
  | [num; den] =>
      match int_literal num, int_literal den with
      | Some rn, Some rd =>
          (* the text is compiled before it runs *)
          match rn, rd with
          | Ok a, Ok b => int_truediv a b
          | Raise e, _ => Raise e
          | _, Raise e => Raise e
          | _, _ => Beyond
          end
      | _, _ => Beyond
      end
  | _ => Beyond
  end.

(** [round(eval(x))] *)
Definition round_eval (x : pyval) : result pyval :=
  match x with
  | PStr text => let? f := eval_ratio text in Ok (PInt (round_float f))
  | _ => Raise TypeError
  end.

(** ** The json library: decoding *)

Definition is_ws (c : codepoint) : bool :=
  N.eqb c 32 || N.eqb c 9 || N.eqb c 10 || N.eqb c 13.

Fixpoint skip_ws (s : str) : str :=
  match s with
  | c :: r => if is_ws c then skip_ws r else s
  | [] => []
  end.

Definition hex_value (c : codepoint) : option N :=
  if is_digit c then Some (c - chr "0")%N
  else if in_range (chr "a") (chr "f") c then Some (c - chr "a" + 10)%N
  else if in_range (chr "A") (chr "F") c then Some (c - chr "A" + 10)%N
  else None.

Definition hex4_value (a b c d : codepoint) : option N :=
  match hex_value a, hex_value b, hex_value c, hex_value d with
  | Some x, Some y, Some z, Some t => Some (((x * 16 + y) * 16 + z) * 16 + t)%N
  | _, _, _, _ => None
  end.

Definition is_high_surrogate (u : N) : bool := in_range 55296 56319 u.
Definition is_low_surrogate (u : N) : bool := in_range 56320 57343 u.
Definition join_surrogates (hi lo : N) : N :=
  (65536 + (hi - 55296) * 1024 + (lo - 56320))%N.

Definition backslash : codepoint := 92%N.

(** The character a one-letter escape stands for. *)
Definition short_escape (e : codepoint) : option codepoint :=
  if N.eqb e dq then Some dq
  else if N.eqb e backslash then Some backslash
  else if N.eqb e (chr "/") then Some (chr "/")
  else if N.eqb e (chr "b") then Some 8%N
  else if N.eqb e (chr "f") then Some 12%N
  else if N.eqb e (chr "n") then Some 10%N
  else if N.eqb e (chr "r") then Some 13%N
  else if N.eqb e (chr "t") then Some 9%N
  else None.

Definition push (c : codepoint) (r : result (str * str)) : result (str * str) :=
  let? (x, rest) := r in Ok (c :: x, rest).

(** [scanstring], strict, started after the opening quote: the string and
    the text after its closing quote. *)
Fixpoint scanstring (s : str) : result (str * str) :=
  match s with
  | [] => Raise JSONDecodeError
  | c :: r =>
      if N.eqb c dq then Ok ([], r)
      else if N.eqb c backslash then
        match r with
        | [] => Raise JSONDecodeError
        | e :: r1 =>
            if N.eqb e (chr "u") then
              match r1 with
              | h1 :: h2 :: h3 :: h4 :: r2 =>
                  match hex4_value h1 h2 h3 h4 with
                  | None => Raise JSONDecodeError
                  | Some u1 =>
                      if is_high_surrogate u1 then
                        match r2 with
                        | b :: u :: g1 :: g2 :: g3 :: g4 :: r3 =>
                            if N.eqb b backslash && N.eqb u (chr "u") then
                              match hex4_value g1 g2 g3 g4 with
                              | None => Raise JSONDecodeError
                              | Some u2 =>
                                  if is_low_surrogate u2
                                  then push (join_surrogates u1 u2) (scanstring r3)
                                  else push u1 (scanstring r2)
                              end
                            else push u1 (scanstring r2)
                        | _ => push u1 (scanstring r2)
                        end
                      else push u1 (scanstring r2)
                  end
              | _ => Raise JSONDecodeError
              end
            else
              match short_escape e with
              | Some x => push x (scanstring r1)
              | None => Raise JSONDecodeError
              end
        end
      else if (c <? 32)%N then Raise JSONDecodeError
      else push c (scanstring r)
  end.

(** The longest run of digits at the head of [s], and the rest. *)
Fixpoint span_digits (s : str) : str * str :=
  match s with
  | c :: r =>
      if is_digit c then let '(ds, rest) := span_digits r in (c :: ds, rest)
      else ([], s)
  | [] => ([], [])
  end.

(** A number at the head of [s] (the scanner's [match_number]): [None]
    when there is none, [Beyond] for one with a fraction or an exponent. *)
Definition match_number (s : str) : option (result (pyval * str)) :=
  let '(neg, body) :=
    match s with
    | c :: r => if N.eqb c (chr "-") then (true, r) else (false, s)
    | [] => (false, s)
    end in
  match body with
  | [] => None
  | d0 :: r0 =>
      if is_digit d0 then
        let '(ds, rest) :=
          if N.eqb d0 (chr "0") then ([d0], r0) else span_digits body in
        let is_float :=
          match rest with
          | c1 :: c2 :: r2 =>
              (N.eqb c1 (chr ".") && is_digit c2)
              || ((N.eqb c1 (chr "e") || N.eqb c1 (chr "E"))
                  && (is_digit c2
                      || ((N.eqb c2 (chr "+") || N.eqb c2 (chr "-"))
                          && match r2 with
                             | c3 :: _ => is_digit c3
                             | [] => false
                             end)))
          | _ => false
          end in
        if is_float then Some Beyond
        else Some (Ok (PInt (if neg then - digits_value ds else digits_value ds),
                       rest))
      else None
  end.

(** [dict(pairs)] *)
Definition dict_of_pairs (pairs : list (str * pyval)) : items :=
  fold_left (fun d kv => dict_set (PStr kv.1) kv.2 d) pairs [].

(** [scan_once] and the loops of [JSONArray] and [JSONObject].  [fuel]
    bounds the depth of the recursion; the length of the text is enough. *)
Fixpoint scan_once (fuel : nat) (s : str) {struct fuel}
  : result (pyval * str) :=
  match fuel with
  | O => Beyond
  | S n =>
      match s with
      | [] => Raise JSONDecodeError
      | c :: r =>
          if N.eqb c dq then
            let? (x, rest) := scanstring r in Ok (PStr x, rest)
          else if N.eqb c (chr "{") then
            match skip_ws r with
            | c1 :: r1 =>
                if N.eqb c1 (chr "}") then Ok (PDict [], r1)
                else if N.eqb c1 dq then
                  let? (pairs, rest) := object_items n r1 in
                  Ok (PDict (dict_of_pairs pairs), rest)
                else Raise JSONDecodeError
            | [] => Raise JSONDecodeError
            end
          else if N.eqb c (chr "[") then
            match skip_ws r with
            | c1 :: r1 =>
                if N.eqb c1 (chr "]") then Ok (PList [], r1)
                else
                  let? (l, rest) := array_items n (c1 :: r1) in
                  Ok (PList l, rest)
            | [] => Raise JSONDecodeError
            end
          else if starts_with (lit "null") s then Ok (PNone, drop 4 s)
          else if starts_with (lit "true") s then Ok (PBool true, drop 4 s)
          else if starts_with (lit "false") s then Ok (PBool false, drop 5 s)
          else
            match match_number s with
            | Some r => r
            | None =>
                if starts_with (lit "NaN") s || starts_with (lit "Infinity") s
                   || starts_with (lit "-Infinity") s
                then Beyond
                else Raise JSONDecodeError
            end
      end
  end
with array_items (fuel : nat) (s : str) {struct fuel}
  : result (list pyval * str) :=
  match fuel with
  | O => Beyond
  | S n =>
      let? (v, r) := scan_once n s in
      match skip_ws r with
      | c :: r1 =>
          if N.eqb c (chr "]") then Ok ([v], r1)
          else if N.eqb c (chr ",") then
            let? (vs, rest) := array_items n (skip_ws r1) in
            Ok (v :: vs, rest)
          else Raise JSONDecodeError
      | [] => Raise JSONDecodeError
      end
  end
with object_items (fuel : nat) (s : str) {struct fuel}
  : result (list (str * pyval) * str) :=
  match fuel with
  | O => Beyond
  | S n =>
      (* [s] starts after the opening quote of a key *)
      let? (key, r) := scanstring s in
      match skip_ws r with
      | c :: r1 =>
          if N.eqb c (chr ":") then
            let? (v, r2) := scan_once n (skip_ws r1) in
            match skip_ws r2 with
            | c2 :: r3 =>
                if N.eqb c2 (chr "}") then Ok ([(key, v)], r3)
                else if N.eqb c2 (chr ",") then
                  match skip_ws r3 with
                  | c3 :: r4 =>
                      if N.eqb c3 dq then
                        let? (kvs, rest) := object_items n r4 in
                        Ok ((key, v) :: kvs, rest)
                      else Raise JSONDecodeError
                  | [] => Raise JSONDecodeError
                  end
                else Raise JSONDecodeError
            | [] => Raise JSONDecodeError
            end
          else Raise JSONDecodeError
      | [] => Raise JSONDecodeError
      end
  end.

(** [json.loads(s)] *)
Definition json_loads (s : str) : result pyval :=
  if starts_with [65279%N] s then Raise JSONDecodeError
  else
    let? (v, rest) := scan_once (S (length s)) (skip_ws s) in
    match skip_ws rest with
    | [] => Ok v
    | _ :: _ => Raise JSONDecodeError
    end.

(** ** The json library: encoding with [indent=4, sort_keys=True] *)

(** One character of [encode_basestring_ascii]. *)
Definition escape_char (c : codepoint) : str :=
  if N.eqb c dq then [backslash; dq]
  else if N.eqb c backslash then [backslash; backslash]
  else if N.eqb c 10 then [backslash; chr "n"]
  else if N.eqb c 13 then [backslash; chr "r"]
  else if N.eqb c 9 then [backslash; chr "t"]
  else if N.eqb c 8 then [backslash; chr "b"]
  else if N.eqb c 12 then [backslash; chr "f"]
  else if in_range 32 126 c then [c]
  else if (c <? 65536)%N then [backslash; chr "u"] ++ hex 4 c
  else
    let n := (c - 65536)%N in
    [backslash; chr "u"] ++ hex 4 (55296 + (n / 1024) mod 1024)%N
    ++ [backslash; chr "u"] ++ hex 4 (56320 + n mod 1024)%N.

Definition encode_basestring_ascii (s : str) : str :=
  [dq] ++ flat_map escape_char s ++ [dq].

(** What an encoder has written, and how it ended. *)
Definition emit := (str * result unit)%type.

Definition emit_text (t : str) : emit := (t, Ok tt).

Definition emit_then (a b : emit) : emit :=
  match a with
  | (t, Ok _) => (t ++ b.1, b.2)
  | _ => a
  end.

Definition emit_result (r : result str) : emit :=
  match r with
  | Ok t => (t, Ok tt)
  | Raise e => ([], Raise e)
  | Beyond => ([], Beyond)
  end.

(** ['\n' + ' ' * (4 * level)] *)
Definition newline_indent (level : nat) : str :=
  nl ++ repeat 32%N (4 * level).

Fixpoint str_ltb (a b : str) : bool :=
  match a, b with
  | [], _ :: _ => true
  | _, [] => false
  | x :: a', y :: b' => (x <? y)%N || (N.eqb x y && str_ltb a' b')
  end.

(** [a < b] on dict keys; the order of tuples is left out. *)
Definition py_lt (a b : pyval) : result bool :=
  match a, b with
  | PStr x, PStr y => Ok (str_ltb x y)
  | PInt x, PInt y => Ok (x <? y)
  | PInt x, PBool y => Ok (x <? Z.b2z y)
  | PBool x, PInt y => Ok (Z.b2z x <? y)
  | PBool x, PBool y => Ok (Z.b2z x <? Z.b2z y)
  | (PTuple _ | PList _), (PTuple _ | PList _) => Beyond
  | _, _ => Raise TypeError
  end.

Section sorting.
Context {A : Type}.

Fixpoint insert_item (x : pyval * A) (l : list (pyval * A))
  : result (list (pyval * A)) :=
  match l with
  | [] => Ok [x]
  | y :: l' =>
      let? lt := py_lt x.1 y.1 in
      if lt then Ok (x :: l)
      else let? r := insert_item x l' in Ok (y :: r)
  end.

(** [sorted(dct.items())]; the keys of a dict differ, so the order of
    two items is the order of their keys. *)
Fixpoint sorted_items (l : list (pyval * A)) : result (list (pyval * A)) :=
  match l with
  | [] => Ok []
  | x :: l' => let? s := sorted_items l' in insert_item x s
  end.
End sorting.

(** The text a dict key is written as. *)
Definition key_str (k : pyval) : result str :=
  match k with
  | PStr s => Ok s
  | PBool true => Ok (lit "true")
  | PBool false => Ok (lit "false")
  | PNone => Ok (lit "null")
  | PInt i => Ok (int_str i)
  | _ => Raise TypeError
  end.

(** The elements of a list, each already encoded, written in turn. *)
Fixpoint emit_elems (level : nat) (first : bool) (es : list emit) : emit :=
  match es with
  | [] => emit_text []
  | e :: es' =>
      emit_then
        (emit_then
           (emit_text ((if first then lit "[" else lit ",")
                       ++ newline_indent level))
           e)
        (emit_elems level false es')
  end.

(** One item of a dict: the key is converted first, then the separator,
    the key and the value are written. *)
Definition emit_item (level : nat) (first : bool) (k : pyval) (e : emit)
  : emit :=
  match key_str k with
  | Ok t =>
      emit_then
        (emit_text ((if first then [] else lit "," ++ newline_indent level)
                    ++ encode_basestring_ascii t ++ lit ": "))
        e
  | Raise x => ([], Raise x)
  | Beyond => ([], Beyond)
  end.

Fixpoint emit_items (level : nat) (first : bool) (l : list (pyval * emit))
  : emit :=
  match l with
  | [] => emit_text []
  | (k, e) :: l' =>
      emit_then (emit_item level first k e) (emit_items level false l')
  end.

(** [_iterencode(o, level)].  A value has no effect when it is encoded,
    so the values of a container are encoded before they are put in
    their place. *)
Fixpoint iterencode (o : pyval) (level : nat) {struct o} : emit :=
  let encode_list :=
    fun (l : list pyval) =>
      match l with
      | [] => emit_text (lit "[]")
      | _ :: _ =>
          emit_then
            (emit_elems (S level) true
               (map (fun v => iterencode v (S level)) l))
            (emit_text (newline_indent level ++ lit "]"))
      end in
  match o with
  | PStr s => emit_text (encode_basestring_ascii s)
  | PNone => emit_text (lit "null")
  | PBool true => emit_text (lit "true")
  | PBool false => emit_text (lit "false")
  | PInt i => emit_text (int_str i)
  | PList l => encode_list l
  | PTuple l => encode_list l
  | PDict d =>
      match d with
      | [] => emit_text (lit "{}")
      | _ :: _ =>
          emit_then (emit_text (lit "{" ++ newline_indent (S level)))
            (match
               sorted_items
                 (map (fun kv => let '(k, v) := kv in
                                 (k, iterencode v (S level))) d)
             with
             | Ok sorted =>
                 emit_then (emit_items (S level) true sorted)
                   (emit_text (newline_indent level ++ lit "}"))
             | Raise e => ([], Raise e)
             | Beyond => ([], Beyond)
             end)
      end
  end.

(** [json.dumps(o, indent=4, sort_keys=True)] *)
Definition json_dumps (o : pyval) : result str :=
  match iterencode o 0 with
  | (t, Ok _) => Ok t
  | (_, Raise e) => Raise e
  | (_, Beyond) => Beyond
  end.

(** [open(path, "w")]: the file is created or emptied. *)
Definition open_w (E : env) (path : str) : M unit :=
  fun w =>
    if can_create E path then
      (Ok tt, World (stdout w) (logged w) (spawned w) (<[path := []]> (files w)))
    else (Raise (OSError path), w).

(** [json.dump(o, fp, indent=4, sort_keys=True)] and the close of [fp]:
    what was written before an error stays in the file. *)
Definition json_dump (o : pyval) (path : str) : M unit :=
  fun w =>
    let '(t, r) := iterencode o 0 in
    (r, World (stdout w) (logged w) (spawned w) (<[path := t]> (files w))).

(** [json_store(outputfile, jsonobject)] *)
Definition json_store (E : env) (outputfile : str) (jsonobject : pyval)
  : M unit :=
  open_w E outputfile;;
  json_dump jsonobject outputfile.

(** [json_load(jsonfile)] *)
Definition json_load (jsonfile : str) : M pyval :=
  fun w =>
    match files w !! jsonfile with
    | Some text => (json_loads text, w)
    | None => (Raise (OSError jsonfile), w)
    end.

(** ** The media prober *)

(** [str.isspace] of one character. *)
Definition is_space (c : codepoint) : bool :=
  in_range 9 13 c || in_range 28 32 c || N.eqb c 133 || N.eqb c 160
  || N.eqb c 5760 || in_range 8192 8202 c || N.eqb c 8232 || N.eqb c 8233
  || N.eqb c 8239 || N.eqb c 8287 || N.eqb c 12288.

Fixpoint lstrip (s : str) : str :=
  match s with
  | c :: r => if is_space c then lstrip r else s
  | [] => []
  end.

(** [s.strip()] *)
Definition strip (s : str) : str := rev (lstrip (rev (lstrip s))).

(** A loop [for x in l: state = body(state, x)] that an exception ends. *)
Fixpoint for_each {S X : Type} (body : S -> X -> result S) (l : list X)
  (s : S) : result S :=
  match l with
  | [] => Ok s
  | x :: l' => let? s' := body s x in for_each body l' s'
  end.

Definition needed_init : items :=
  [ (PStr (lit "pix_fmt"), PStr (lit "unknown"));
    (PStr (lit "bits_per_raw_sample"), PStr (lit "unknown"));
    (PStr (lit "width"), PStr (lit "unknown"));
    (PStr (lit "height"), PStr (lit "unknown"));
    (PStr (lit "avg_frame_rate"), PStr (lit "unknown"));
    (PStr (lit "codec_name"), PStr (lit "unknown"));
    (PStr (lit "profile"), PStr (lit "unknown")) ].

(** The body of the inner loop of [ffprobe], lines 118 to 121. *)
Definition visit_field (stream : pyval) (needed : items) (n : pyval)
  : result items :=
  let? present := py_in n stream in
  if present then
    let? v := getitem stream n in
    let needed := dict_set n v needed in
    if py_eq n (PStr (lit "avg_frame_rate")) then
      let? cur := getitem (PDict needed) n in
      let? rounded := round_eval cur in
      Ok (dict_set n rounded needed)
    else Ok needed
  else Ok needed.

(** [ffprobe] from line 107 on: the result built from the parsed output
    [res] of the tool. *)
Definition ffprobe_needed (res : pyval) : result items :=
  let needed := needed_init in
  let? streams := getitem res (PStr (lit "streams")) in
  let? streams := py_iter streams in
  let? needed :=
    for_each (fun needed stream =>
                for_each (visit_field stream) (dict_keys needed) needed)
             streams needed in
  let? format := py_get res (PStr (lit "format")) (PDict []) in
  let? bitrate := py_get format (PStr (lit "bit_rate")) (PInt (-1)) in
  let needed := dict_set (PStr (lit "bitrate")) bitrate needed in
  let? codec_name := getitem (PDict needed) (PStr (lit "codec_name")) in
  let needed := dict_set (PStr (lit "codec")) codec_name needed in
  let? format := py_get res (PStr (lit "format")) (PDict []) in
  let? duration := py_get format (PStr (lit "duration")) (PInt 0) in
  let needed := dict_set (PStr (lit "duration")) duration needed in
  let? profile := getitem (PDict needed) (PStr (lit "profile")) in
  let needed := dict_set (PStr (lit "video_profile")) profile needed in
  Ok needed.

Definition ffprobe_cmd (filename : str) : list str :=
  [ lit "ffprobe";
    lit "-loglevel"; lit "error";
    lit "-show_format";
    lit "-select_streams"; lit "v:0";
    lit "-show_streams";
    lit "-of"; lit "json";
    filename ].

Definition tool_missing : exn :=
  Exception (lit "you need to have ffprobe installed, please read README.md.").

Definition file_not_found (filename : str) : exn :=
  Exception (filename ++ lit " is not a valid file").

Definition probe_empty (filename : str) : exn :=
  Exception (filename
             ++ lit " is somehow not valid, so ffprobe could not extract anything").

(** [ffprobe(filename)] *)
Definition ffprobe (E : env) (filename : str) : M items :=
  match which E (lit "ffprobe") with
  | None => raise tool_missing
  | Some _ =>
      let* present := isfile filename in
      if negb present then raise (file_not_found filename)
      else
        let cmd := ffprobe_cmd filename in
        let* out := run_cmd E cmd false false in
        match out with
        | None => raise AttributeError  (* [None] has no [strip] *)
        | Some out =>
            let res := strip out in
            if (length res =? 0)%nat then raise (probe_empty filename)
            else
              let* res := lift (json_loads res) in
              lift (ffprobe_needed res)
        end
  end.

(** ** Vocabulary of the statements *)

(** The state after a call that printed [line] (or nothing) and ran
    [cmds]. *)
Definition after (w : world) (printed : str) (cmds : list (list str)) : world :=
  World (stdout w ++ printed) (logged w) (spawned w ++ cmds) (files w).

(** What [run_cmd] prints for [cmd] before it runs it. *)
Definition echo (cmd : list str) : str :=
  join (lit " ") (map shlex_quote cmd) ++ nl.

(** [needle] occurs somewhere in [hay]. *)
Definition has_substring (needle hay : str) : Prop :=
  exists pre post, hay = pre ++ needle ++ post.

(** The name of the frame-rate field. *)
Definition avg_frame_rate : str := lit "avg_frame_rate".

(** The seven fields [ffprobe] looks for in a stream. *)
Definition field_names : list str :=
  [ lit "pix_fmt"; lit "bits_per_raw_sample"; lit "width"; lit "height";
    lit "avg_frame_rate"; lit "codec_name"; lit "profile" ].

(** The keys of a result of [ffprobe], in the order of insertion. *)
Definition result_keys : list pyval :=
  map (fun s => PStr (lit s))
    [ "pix_fmt"; "bits_per_raw_sample"; "width"; "height"; "avg_frame_rate";
      "codec_name"; "profile"; "bitrate"; "codec"; "duration";
      "video_profile" ]%string.

(** What a field of a stream becomes in the result. *)
Definition field_value (s : str) (v : pyval) : result pyval :=
  if str_eqb s avg_frame_rate then round_eval v else Ok v.

(** The value the last of [streams] that carries [n] has for it. *)
Fixpoint last_value (n : pyval) (streams : list items) : option pyval :=
  match streams with
  | [] => None
  | s :: rest =>
      match last_value n rest with
      | Some v => Some v
      | None => dict_lookup n s
      end
  end.

(** The entry [key] of the format section of the parsed output. *)
Definition format_entry (res : pyval) (key : str) : option pyval :=
  match py_get res (PStr (lit "format")) (PDict []) with
  | Ok (PDict f) => dict_lookup (PStr key) f
  | _ => None
  end.

(** All of [ks] are strings. *)
Definition str_keys (ks : list pyval) : Prop :=
  Forall (fun k => exists s, k = PStr s) ks.

(** The quotient [n / d] rounded to an integer, half to even. *)
Definition round_ratio (n d : Z) : Z :=
  round_half_even (n * Z.sgn d) (Z.abs d).

(** [r] is an integer nearest to the quotient [n / d]. *)
Definition nearest_integer (r n d : Z) : Prop :=
  2 * Z.abs (r * d - n) <= Z.abs d.

(** The frame-rate entry of a result is the default text or an integer. *)
Definition rate_entry_ok (d : items) : Prop :=
  dict_lookup (PStr avg_frame_rate) d = Some (PStr (lit "unknown"))
  \/ exists r, dict_lookup (PStr avg_frame_rate) d = Some (PInt r).

(** A frame rate [num/den] that [round(eval(..))] handles exactly. *)
Definition plain_rate (v : pyval) : Prop :=
  exists num den,
    v = PStr (int_str num ++ lit "/" ++ int_str den)
    /\ den <> 0 /\ Z.abs num < 2 ^ 52.

(** Two streams have the same values for the seven fields. *)
Definition same_fields (s1 s2 : items) : Prop :=
  forall n, In n field_names ->
            dict_lookup (PStr n) s1 = dict_lookup (PStr n) s2.

(** ** Vocabulary of the JSON round trip *)

(** A Unicode scalar value: a code point that is not a surrogate. *)
Definition is_scalar (c : codepoint) : bool :=
  (c <? 1114112)%N && negb (in_range 55296 57343 c).

(** A string of Unicode scalar values. *)
Definition scalar_str (s : str) : bool := forallb is_scalar s.

(** No two of the keys [ks] are equal. *)
Fixpoint distinct (ks : list pyval) : bool :=
  match ks with
  | [] => true
  | k :: r => negb (existsb (py_eq k) r) && distinct r
  end.

(** The values JSON has as they are: no tuple, and in every dict
    distinct string keys. *)
Fixpoint json_native (v : pyval) : bool :=
  match v with
  | PNone | PBool _ | PInt _ => true
  | PStr s => scalar_str s
  | PList l => forallb json_native l
  | PTuple _ => false
  | PDict d =>
      forallb (fun kv => match kv.1 with
                         | PStr s => scalar_str s
                         | _ => false
                         end && json_native kv.2) d
      && distinct (map fst d)
  end.

(** [f] applied to the second component of every pair. *)
Definition pmap {A B} (f : A -> B) (l : list (pyval * A)) : list (pyval * B) :=
  map (fun kv => (kv.1, f kv.2)) l.

(** Every key of [l] is a string. *)
Definition str_keyed {A} (l : list (pyval * A)) : Prop :=
  Forall (fun kv => exists s, kv.1 = PStr s) l.

(** Items with the string keys [sp] has. *)
Definition str_items {A} (sp : list (str * A)) : list (pyval * A) :=
  map (fun kv => (PStr kv.1, kv.2)) sp.

(** What [json_load] gives back for [v]: the items of every dict in
    the order of their keys. *)
Fixpoint canon (v : pyval) : pyval :=
  match v with
  | PList l => PList (map canon l)
  | PDict d =>
      PDict (match sorted_items (map (fun kv => (kv.1, canon kv.2)) d) with
             | Ok s => s
             | _ => []
             end)
  | _ => v
  end.

(** What follows a value in the text of a container: a comma, a
    newline or the end. *)
Definition delim (rest : str) : bool :=
  match rest with
  | [] => true
  | c :: _ => N.eqb c (chr ",") || N.eqb c 10
  end.

(** The text of a value starts with a character that is no white
    space, no closing bracket and no byte-order mark. *)
Definition good_head (t : str) : bool :=
  match t with
  | c :: _ => negb (is_ws c) && negb (N.eqb c (chr "]")) && negb (N.eqb c 65279)
  | [] => false
  end.

(** The round trip of one value at one indentation level. *)
Definition round_trips (v : pyval) (level : nat) : Prop :=
  (iterencode v level).2 = Ok tt
  /\ good_head (iterencode v level).1 = true
  /\ forall fuel rest,
       (length (iterencode v level).1 <= fuel)%nat ->
       delim rest = true ->
       scan_once fuel ((iterencode v level).1 ++ rest) = Ok (canon v, rest).

(** The text of the elements of a list after the first. *)
Definition elems_text (level : nat) (l : list pyval) : str :=
  (emit_elems level false (map (fun v => iterencode v level) l)).1.

(** The text of the items of a dict after the first. *)
Definition items_text (level : nat) (sp : list (str * pyval)) : str :=
  (emit_items level false
     (pmap (fun v => iterencode v level) (str_items sp))).1.

(** Equality of lists and of dicts, as [py_eq] computes them. *)
Fixpoint seq_eqb (xs ys : list pyval) : bool :=
  match xs, ys with
  | [], [] => true
  | x :: xs', y :: ys' => py_eq x y && seq_eqb xs' ys'
  | _, _ => false
  end.

Fixpoint dict_find_eq (k v : pyval) (ys : items) : bool :=
  match ys with
  | [] => false
  | (k', v') :: ys' => if py_eq k k' then py_eq v v' else dict_find_eq k v ys'
  end.

Fixpoint dict_all_in (xs ys : items) : bool :=
  match xs with
  | [] => true
  | (k, v) :: xs' => dict_find_eq k v ys && dict_all_in xs' ys
  end.

(** The state after [json_store] has written [text] to [path]. *)
Definition stored (w : world) (path text : str) : world :=
  World (stdout w) (logged w) (spawned w)
        (<[path := text]> (<[path := []]> (files w))).

(** Induction over values that reaches inside lists, tuples and dicts. *)
Section pyval_induction.
Variable P : pyval -> Prop.
Hypothesis HNone : P PNone.
Hypothesis HBool : forall b, P (PBool b).
Hypothesis HInt : forall i, P (PInt i).
Hypothesis HStr : forall s, P (PStr s).
Hypothesis HList : forall l, Forall P l -> P (PList l).
Hypothesis HTuple : forall l, Forall P l -> P (PTuple l).
Hypothesis HDict : forall d, Forall (fun kv => P kv.2) d -> P (PDict d).
Fixpoint pyval_nested_ind (v : pyval) : P v :=
  match v with
  | PNone => HNone
  | PBool b => HBool b
  | PInt i => HInt i
  | PStr s => HStr s
  | PList l =>
      HList l ((fix go (l : list pyval) : Forall P l :=
                  match l with
                  | [] => List.Forall_nil P
                  | x :: l' => List.Forall_cons _ x l' (pyval_nested_ind x) (go l')
                  end) l)
  | PTuple l =>
      HTuple l ((fix go (l : list pyval) : Forall P l :=
                   match l with
                   | [] => List.Forall_nil P
                   | x :: l' => List.Forall_cons _ x l' (pyval_nested_ind x) (go l')
                   end) l)
  | PDict d =>
      HDict d ((fix go (d : items) : Forall (fun kv => P kv.2) d :=
                  match d with
                  | [] => List.Forall_nil _
                  | kv :: d' =>
                      List.Forall_cons _ kv d'
                        (pyval_nested_ind kv.2) (go d')
                  end) d)
  end.
End pyval_induction.

(** The key of [x] is a string that comes before the key of [y]. *)
Definition key_lt {A} (x y : pyval * A) : Prop :=
  exists s t, x.1 = PStr s /\ y.1 = PStr t /\ str_ltb s t = true.

(** Items in the strictly ascending order of their string keys. *)
Fixpoint ascending {A} (l : list (pyval * A)) : Prop :=
  match l with
  | [] => True
  | x :: r => Forall (key_lt x) r /\ ascending r
  end.

(** A text of ASCII characters. *)
Definition ascii_text (t : str) : Prop := Forall (fun c => (c < 128)%N) t.

(** ** Concrete inputs used as examples *)

(** A process that has printed, logged and run nothing, with no files. *)
Definition empty_world : world := World [] [] [] ∅.

(** A machine without ffprobe, on which every command fails to start. *)
Definition bare_env : env :=
  Env (fun _ => None) (fun _ => SpawnFailed (OSError (lit "No such file")))
      (fun _ => true) (fun _ => false).

(** A shell command that prints the single byte 255, which is not UTF-8,
    and exits with status 1. *)
Definition garbling_cmd : list str :=
  [ lit "sh"; lit "-c"; lit "printf '\377'; exit 1" ].

(** A machine on which a command does what [garbling_cmd] does. *)
Definition garbling_env : env :=
  Env (fun _ => Some (lit "/usr/bin/ffprobe")) (fun _ => Exited 1 [255%N])
      (fun _ => true) (fun _ => false).

(** A machine on which every command exits with status 1 after printing
    [boom] and a newline. *)
Definition failing_env : env :=
  Env (fun _ => Some (lit "/usr/bin/ffprobe"))
      (fun _ => Exited 1 (lit "boom" ++ nl))
      (fun _ => true) (fun _ => false).

(** A video stream as the tool describes it. *)
Definition sample_stream : items :=
  [ (PStr (lit "codec_name"), PStr (lit "h264"));
    (PStr (lit "profile"), PStr (lit "High"));
    (PStr (lit "width"), PInt 1920);
    (PStr (lit "height"), PInt 1080);
    (PStr (lit "pix_fmt"), PStr (lit "yuv420p"));
    (PStr (lit "avg_frame_rate"), PStr (lit "30000/1001")) ].

(** The tool's answer for a file with that one video stream. *)
Definition sample_res : pyval :=
  PDict
    [ (PStr (lit "streams"), PList [ PDict sample_stream ]);
      (PStr (lit "format"),
       PDict [ (PStr (lit "filename"), PStr (lit "a.mp4")) ]) ].

(** The bytes the tool prints for it. *)
Definition sample_output : bytes :=
  match json_dumps sample_res with
  | Ok t => t ++ nl
  | _ => []
  end.

(** A machine with ffprobe, which prints [sample_output] for any file. *)
Definition sample_env : env :=
  Env (fun _ => Some (lit "/usr/bin/ffprobe")) (fun _ => Exited 0 sample_output)
      (fun _ => true) (fun _ => false).

(** A process that has the file [a.mp4]. *)
Definition sample_world : world := World [] [] [] {[ lit "a.mp4" := [] ]}.

(** The result of the prober for [sample_res]. *)
Definition sample_needed : items :=
  Eval vm_compute in
    match ffprobe_needed sample_res with
    | Ok d => d
    | _ => []
    end.

(** The parsed output for one stream whose only field is the frame
    rate [text]. *)
Definition rate_only_res (text : str) : pyval :=
  PDict [ (PStr (lit "streams"),
           PList [ PDict [ (PStr avg_frame_rate, PStr text) ] ]) ].

(** A mapping with an integer key. *)
Definition int_keyed : pyval := PDict [ (PInt 1, PInt 2) ].

(** A mapping of the kind the pipeline stores. *)
Definition sample_mapping : pyval :=
  PDict [ (PStr (lit "width"), PInt 1920);
          (PStr (lit "codec"), PStr (lit "h264"));
          (PStr (lit "rates"), PList [ PInt 30; PInt (-1); PNone ]);
          (PStr (lit "flags"), PDict [ (PStr (lit "hdr"), PBool false) ]) ].

(** A machine with ffprobe on which every command prints [output] and
    exits with status 0. *)
Definition printing_env (output : bytes) : env :=
  Env (fun _ => Some (lit "/usr/bin/ffprobe")) (fun _ => Exited 0 output)
      (fun _ => true) (fun _ => false).

(** The tool's answer for a file with a video stream of unknown frame
    rate. *)
Definition still_res : pyval :=
  PDict [ (PStr (lit "streams"),
           PList [ PDict [ (PStr (lit "codec_name"), PStr (lit "png"));
                           (PStr avg_frame_rate, PStr (lit "0/0")) ] ]) ].

(** The tool's answer for a file without a video stream. *)
Definition audio_only_res : pyval :=
  PDict [ (PStr (lit "streams"), PList []);
          (PStr (lit "format"),
           PDict [ (PStr (lit "duration"), PStr (lit "12.5"));
                   (PStr (lit "bit_rate"), PStr (lit "128000")) ]) ].

(** A mapping with a tuple as a key, which [json] cannot write. *)
Definition tuple_keyed : pyval :=
  PDict [ (PTuple [ PInt 1; PInt 2 ], PInt 3) ].

(** A process with the file [out.json], which holds an empty list. *)
Definition stored_world : world :=
  World [] [] [] {[ lit "out.json" := lit "[]" ]}.

(** The items of [sample_mapping] in another order. *)
Definition sample_mapping_reordered : pyval :=
  PDict [ (PStr (lit "flags"), PDict [ (PStr (lit "hdr"), PBool false) ]);
          (PStr (lit "rates"), PList [ PInt 30; PInt (-1); PNone ]);
          (PStr (lit "width"), PInt 1920);
          (PStr (lit "codec"), PStr (lit "h264")) ].

(** The tool's answer for [sample_stream] with entries the prober does
    not look at. *)
Definition verbose_res : pyval :=
  PDict
    [ (PStr (lit "programs"), PList []);
      (PStr (lit "streams"),
       PList [ PDict ((PStr (lit "index"), PInt 0)
                      :: sample_stream
                      ++ [ (PStr (lit "codec_type"), PStr (lit "video")) ]) ]);
      (PStr (lit "format"),
       PDict [ (PStr (lit "filename"), PStr (lit "a.mp4")) ]) ].

(** * Properties *)

(** ** Strings *)

Lemma starts_with_spec p s :
  starts_with p s = true <-> exists post, s = p ++ post.
Proof.
  revert s. induction p as [|a p IH]; intros s; simpl.
  - split; eauto.
  - destruct s as [|b s]; simpl.
    + split; [discriminate | intros [post H]; discriminate].
    + rewrite andb_true_iff, N.eqb_eq, IH. split.
      * intros [-> [post ->]]. eauto.
      * intros [post H]. injection H as -> ->. eauto.
Qed.

Lemma contains_spec needle hay :
  contains needle hay = true <-> exists pre post, hay = pre ++ needle ++ post.
Proof.
  induction hay as [|c hay IH]; simpl.
  - rewrite orb_false_r, starts_with_spec. split.
    + intros [post H]. exists [], post. exact H.
    + intros [pre [post H]]. destruct pre as [|x pre]; [|discriminate].
      exists post. exact H.
  - rewrite orb_true_iff, starts_with_spec, IH. split.
    + intros [[post H] | [pre [post H]]].
      * exists [], post. exact H.
      * exists (c :: pre), post. simpl. now rewrite H.
    + intros [pre [post H]]. destruct pre as [|x pre]; simpl in H.
      * left. eauto.
      * right. injection H as -> ->. eauto.
Qed.

Lemma contains_false needle hay :
  contains needle hay = false <-> ~ exists pre post, hay = pre ++ needle ++ post.
Proof.
  rewrite <- contains_spec. split.
  - intros H. rewrite H. discriminate.
  - intros H. destruct (contains needle hay); [now destruct H | reflexivity].
Qed.

Lemma contains_app_r needle pre post :
  contains needle post = true -> contains needle (pre ++ post) = true.
Proof.
  rewrite !contains_spec. intros [a [b ->]].
  exists (pre ++ a), b. now rewrite <- app_assoc.
Qed.

Lemma contains_app_l needle pre post :
  contains needle pre = true -> contains needle (pre ++ post) = true.
Proof.
  rewrite !contains_spec. intros [a [b ->]].
  exists a, (b ++ post). now rewrite <- !app_assoc.
Qed.

Lemma contains_self s : contains s s = true.
Proof. apply contains_spec. exists [], []. now rewrite app_nil_r. Qed.

(** ** The command runner *)

(** C3, as stated, fails: a dry run of [ls] leaves the state of the
    process changed, because the command line is printed. *)
Lemma run_cmd_dry_run_prints :
  run_cmd bare_env [lit "ls"] true false empty_world
  <> (Ok None, empty_world).
Proof. vm_compute. discriminate. Qed.

(** C3 (amended): a dry run returns [None]; its only effect is that the
    shell-quoted command line is printed.  No process is spawned and no
    file is touched, whatever the environment does with the program. *)
Theorem run_cmd_dry_run (E : env) (cmd : list str) (verbose : bool) (w : world) :
  run_cmd E cmd true verbose w
  = (Ok None,
     World (stdout w ++ echo cmd) (logged w) (spawned w) (files w)).
Proof.
  unfold run_cmd, echo. simpl. unfold bind, print, ret. reflexivity.
Qed.

(** C2, as stated, fails: when the output of the failed process is not
    UTF-8, the error raised is the decoding error, which carries neither
    the command nor the output. *)
Lemma run_cmd_nonzero_undecodable :
  exec garbling_env garbling_cmd = Exited 1 [255%N]
  /\ utf8_decode [255%N] = None
  /\ (run_cmd garbling_env garbling_cmd false false empty_world).1
     = Raise UnicodeDecodeError.
Proof. repeat split; reflexivity. Qed.

(** C2 (amended): when the process exits with a non-zero status and its
    merged output is valid UTF-8, [run_cmd] (no dry run) raises the
    exception whose message holds the command, as Python prints a list,
    and the decoded output.  The process was run once. *)
Theorem run_cmd_nonzero_status (E : env) (cmd : list str) (verbose : bool)
    (w : world) (status : Z) (output : bytes) (text : str) :
  exec E cmd = Exited status output ->
  status <> 0 ->
  utf8_decode output = Some text ->
  let msg := lit "Nonzero return status running command "
             ++ str_of_list E cmd ++ lit ":" ++ nl ++ text in
  run_cmd E cmd false verbose w
  = (Raise (Exception msg),
     after w (if verbose then echo cmd else []) [cmd])
  /\ contains (str_of_list E cmd) msg = true
  /\ contains text msg = true.
Proof.
  intros Hexec Hstatus Hdec msg. split; [|split].
  - apply Z.eqb_neq in Hstatus.
    unfold run_cmd, after, echo.
    destruct verbose; simpl;
      unfold bind, try_except, print, check_output, lift, raise, decode; simpl;
      rewrite Hexec, Hstatus, Hdec; simpl; rewrite ?app_nil_r; reflexivity.
  - unfold msg. apply contains_app_r, contains_app_l, contains_self.
  - unfold msg. rewrite !app_assoc. apply contains_app_r, contains_self.
Qed.

Lemma run_cmd_nonzero_status_witness :
  run_cmd failing_env [lit "false"] false false empty_world
  = (Raise (Exception (lit "Nonzero return status running command ['false']:"
                       ++ nl ++ lit "boom" ++ nl)),
     after empty_world [] [[lit "false"]]).
Proof.
  apply (run_cmd_nonzero_status failing_env [lit "false"] false empty_world
           1 (lit "boom" ++ nl) (lit "boom" ++ nl));
    [reflexivity | lia | reflexivity].
Defined.

(** ** The assertion helper *)

(** C8: on a false condition [assert_msg] logs the message as an error
    and leaves through [sys.exit(0)], so the exit status of the process
    is 0, the status of success. *)
Theorem assert_msg_exit_status (fail_message : str) (w : world) :
  assert_msg false fail_message w
  = (Raise (SystemExit 0),
     World (stdout w) (logged w ++ [(ERROR, fail_message)]) (spawned w) (files w))
  /\ exit_status (assert_msg false fail_message w).1 = Some 0.
Proof. split; reflexivity. Qed.

(** ** The file opener *)

(** C5: [file_open] picks the opener by a substring test on the whole
    file name, bz2 first, then gz, then the plain open; the compressed
    openers get the mode with a [t] appended, so a handle they return is a
    text handle.  [gzX.txt] goes to gzip. *)
Theorem file_open_backend (filename mode : str) :
  (has_substring (lit "bz2") filename ->
   file_open filename mode = OpenCall bz2_open filename (mode ++ lit "t"))
  /\ (~ has_substring (lit "bz2") filename ->
      has_substring (lit "gz") filename ->
      file_open filename mode = OpenCall gzip_open filename (mode ++ lit "t"))
  /\ (~ has_substring (lit "bz2") filename ->
      ~ has_substring (lit "gz") filename ->
      file_open filename mode = OpenCall builtin_open filename mode)
  /\ (oc_opener (file_open filename mode) <> builtin_open ->
      forall kind,
        compressed_handle (oc_mode (file_open filename mode)) = Ok kind ->
        kind = TextHandle)
  /\ file_open (lit "gzX.txt") (lit "r")
     = OpenCall gzip_open (lit "gzX.txt") (lit "rt")
  /\ compressed_handle (lit "rt") = Ok TextHandle.
Proof.
  unfold has_substring, file_open.
  repeat split.
  - intros H. apply contains_spec in H. now rewrite H.
  - intros H1 H2. apply contains_false in H1. apply contains_spec in H2.
    now rewrite H1, H2.
  - intros H1 H2. apply contains_false in H1, H2. now rewrite H1, H2.
  - assert (Ht : contains (lit "t") (mode ++ lit "t") = true)
      by apply contains_app_r, contains_self.
    destruct (contains (lit "bz2") filename);
      [|destruct (contains (lit "gz") filename)]; simpl;
      intros Hne kind; try easy;
      unfold compressed_handle; rewrite Ht;
      destruct (contains (lit "b") (mode ++ lit "t")); congruence.
Qed.

Lemma file_open_backend_witness :
  file_open (lit "data.bz2") (lit "r")
  = OpenCall bz2_open (lit "data.bz2") (lit "rt").
Proof.
  apply (file_open_backend (lit "data.bz2") (lit "r")).
  exists (lit "data."), []. reflexivity.
Defined.

(** ** The media prober: its two preconditions *)

(** C9: without the tool on the path [ffprobe] raises the tool-missing
    error, whether or not the file exists: the tool is looked for before
    the file. *)
Theorem ffprobe_tool_checked_first (E : env) (filename : str) (w : world) :
  which E (lit "ffprobe") = None ->
  ffprobe E filename w = (Raise tool_missing, w).
Proof. intros H. unfold ffprobe. now rewrite H. Qed.

Lemma ffprobe_tool_checked_first_witness :
  files empty_world !! lit "missing.mp4" = None
  /\ ffprobe bare_env (lit "missing.mp4") empty_world
     = (Raise tool_missing, empty_world).
Proof.
  split; [reflexivity|].
  apply (ffprobe_tool_checked_first bare_env (lit "missing.mp4") empty_world).
  reflexivity.
Defined.

(** C4, as stated, fails: for a path that is no file, on a machine
    without the tool, the error is the tool-missing one and not the
    file-not-found one. *)
Lemma ffprobe_missing_file_without_tool :
  files empty_world !! lit "missing.mp4" = None
  /\ ffprobe bare_env (lit "missing.mp4") empty_world
     <> (Raise (file_not_found (lit "missing.mp4")), empty_world).
Proof. split; [reflexivity | vm_compute; discriminate]. Qed.

(** C4 (amended): with the tool on the path, a path that is no file makes
    [ffprobe] raise the file-not-found error with no process spawned and
    the state untouched; without the tool it raises the tool-missing
    error.  Each error carries its message. *)
Theorem ffprobe_preconditions (E : env) (filename : str) (w : world) :
  (which E (lit "ffprobe") <> None ->
   files w !! filename = None ->
   ffprobe E filename w
   = (Raise (Exception (filename ++ lit " is not a valid file")), w))
  /\ (which E (lit "ffprobe") = None ->
      ffprobe E filename w
      = (Raise (Exception
                  (lit "you need to have ffprobe installed, please read README.md.")),
         w)).
Proof.
  split.
  - intros Htool Hfile. unfold ffprobe.
    destruct (which E (lit "ffprobe")); [|congruence].
    unfold bind, isfile. rewrite Hfile.
    rewrite bool_decide_eq_false_2 by (intros [x Hx]; discriminate).
    reflexivity.
  - intros H. unfold ffprobe. now rewrite H.
Qed.

Lemma ffprobe_preconditions_witness :
  ffprobe failing_env (lit "missing.mp4") empty_world
  = (Raise (Exception (lit "missing.mp4 is not a valid file")), empty_world).
Proof.
  apply (ffprobe_preconditions failing_env (lit "missing.mp4") empty_world);
    [discriminate | reflexivity].
Defined.

(** ** Dicts with string keys *)

Lemma str_eqb_eq a b : str_eqb a b = true <-> a = b.
Proof.
  revert b. induction a as [|x a IH]; intros [|y b]; simpl; try easy.
  rewrite andb_true_iff, N.eqb_eq, IH. split.
  - now intros [-> ->].
  - intros H. now injection H.
Qed.

Lemma str_eqb_refl a : str_eqb a a = true.
Proof. now apply str_eqb_eq. Qed.

Lemma py_eq_str_l s k : py_eq (PStr s) k = true <-> k = PStr s.
Proof.
  destruct k; simpl; try easy.
  rewrite str_eqb_eq. split; congruence.
Qed.

Lemma py_eq_str_r k s : py_eq k (PStr s) = true <-> k = PStr s.
Proof.
  destruct k; simpl; try easy.
  rewrite str_eqb_eq. split; congruence.
Qed.

Lemma py_eq_str_neq k s : k <> PStr s -> py_eq k (PStr s) = false.
Proof.
  intros H. destruct (py_eq k (PStr s)) eqn:E; [|reflexivity].
  now apply py_eq_str_r in E.
Qed.

Lemma dict_lookup_set_eq s v d :
  dict_lookup (PStr s) (dict_set (PStr s) v d) = Some v.
Proof.
  induction d as [|[k x] d IH]; simpl.
  - now rewrite str_eqb_refl.
  - destruct (py_eq k (PStr s)) eqn:E; simpl; now rewrite E.
Qed.

Lemma dict_lookup_set_ne s t v d :
  s <> t -> dict_lookup (PStr t) (dict_set (PStr s) v d) = dict_lookup (PStr t) d.
Proof.
  intros Hne. induction d as [|[k x] d IH]; simpl.
  - destruct (str_eqb s t) eqn:E; [|reflexivity].
    now apply str_eqb_eq in E.
  - destruct (py_eq k (PStr s)) eqn:E; simpl.
    + apply py_eq_str_r in E. subst k. simpl.
      destruct (str_eqb s t) eqn:E; [|reflexivity].
      now apply str_eqb_eq in E.
    + now rewrite IH.
Qed.

Lemma dict_set_set s v x d :
  dict_set (PStr s) x (dict_set (PStr s) v d) = dict_set (PStr s) x d.
Proof.
  induction d as [|[k y] d IH]; simpl.
  - now rewrite str_eqb_refl.
  - destruct (py_eq k (PStr s)) eqn:E; simpl; rewrite E; [reflexivity|].
    now rewrite IH.
Qed.

Lemma dict_keys_set_present s v d :
  dict_lookup (PStr s) d <> None ->
  dict_keys (dict_set (PStr s) v d) = dict_keys d.
Proof.
  induction d as [|[k x] d IH]; simpl; [easy|].
  destruct (py_eq k (PStr s)); simpl; [reflexivity|].
  intros H. now rewrite <- IH.
Qed.

Lemma dict_keys_set_absent s v d :
  dict_lookup (PStr s) d = None ->
  dict_keys (dict_set (PStr s) v d) = dict_keys d ++ [PStr s].
Proof.
  induction d as [|[k x] d IH]; simpl; [reflexivity|].
  destruct (py_eq k (PStr s)); simpl; [easy|].
  intros H. now rewrite <- IH.
Qed.

Lemma dict_lookup_none s d :
  dict_lookup (PStr s) d = None <-> ~ In (PStr s) (dict_keys d).
Proof.
  induction d as [|[k x] d IH]; simpl; [tauto|].
  destruct (py_eq k (PStr s)) eqn:E.
  - apply py_eq_str_r in E. split; [easy | tauto].
  - rewrite IH. split; [|tauto].
    intros H [Hk | Hin]; [|tauto].
    subst k. simpl in E. now rewrite str_eqb_refl in E.
Qed.

Lemma dict_lookup_in_keys s d :
  In (PStr s) (dict_keys d) -> dict_lookup (PStr s) d <> None.
Proof. intros Hin H. now apply dict_lookup_none in H. Qed.

(** ** The media prober: the fields of the result *)

Lemma visit_field_dict stream needed s :
  visit_field (PDict stream) needed (PStr s)
  = match dict_lookup (PStr s) stream with
    | None => Ok needed
    | Some v => let? x := field_value s v in Ok (dict_set (PStr s) x needed)
    end.
Proof.
  unfold visit_field, field_value. simpl.
  destruct (dict_lookup (PStr s) stream) as [v|]; simpl; [|reflexivity].
  fold avg_frame_rate. destruct (str_eqb s avg_frame_rate); [|reflexivity].
  rewrite dict_lookup_set_eq. simpl.
  destruct (round_eval v); simpl; try reflexivity.
  now rewrite dict_set_set.
Qed.

(** A step of the inner loop keeps the keys of [needed]. *)
Lemma visit_field_keys stream needed s needed' :
  dict_lookup (PStr s) needed <> None ->
  visit_field stream needed (PStr s) = Ok needed' ->
  dict_keys needed' = dict_keys needed.
Proof.
  intros Hin. unfold visit_field.
  destruct (py_in (PStr s) stream) as [[|]| |]; simpl; try easy;
    [|now intros [= <-]].
  destruct (getitem stream (PStr s)) as [v| |]; simpl; try easy.
  destruct (str_eqb s (lit "avg_frame_rate")).
  - rewrite dict_lookup_set_eq. simpl.
    destruct (round_eval v); simpl; try easy.
    intros [= <-]. rewrite dict_set_set. now apply dict_keys_set_present.
  - intros [= <-]. now apply dict_keys_set_present.
Qed.

Lemma inner_loop_keys stream ks needed needed' :
  str_keys ks ->
  (forall k, In k ks -> In k (dict_keys needed)) ->
  for_each (visit_field stream) ks needed = Ok needed' ->
  dict_keys needed' = dict_keys needed.
Proof.
  intros Hstr. revert needed.
  induction Hstr as [|k ks [s ->] _ IH]; intros needed Hin; simpl.
  - now intros [= <-].
  - destruct (visit_field stream needed (PStr s)) as [n1| |] eqn:E; simpl;
      try easy.
    apply visit_field_keys in E;
      [|apply dict_lookup_in_keys, Hin; now left].
    intros H. apply IH in H.
    + now rewrite H.
    + intros k Hk. rewrite E. apply Hin. now right.
Qed.

Lemma outer_loop_keys streams needed needed' :
  str_keys (dict_keys needed) ->
  for_each (fun needed stream =>
              for_each (visit_field stream) (dict_keys needed) needed)
           streams needed = Ok needed' ->
  dict_keys needed' = dict_keys needed.
Proof.
  revert needed. induction streams as [|stream streams IH];
    intros needed Hstr; simpl.
  - now intros [= <-].
  - destruct (for_each (visit_field stream) (dict_keys needed) needed)
      as [n1| |] eqn:E; simpl; try easy.
    apply inner_loop_keys in E; [|assumption|auto].
    intros H. apply IH in H; rewrite E in *; auto.
Qed.

Lemma needed_init_str_keys : str_keys (dict_keys needed_init).
Proof. repeat constructor; eexists; reflexivity. Qed.

(** The end of [ffprobe], after the loops: four entries are added. *)
Lemma ffprobe_needed_inv res d :
  ffprobe_needed res = Ok d ->
  exists streams needed fmt cn pr,
    (let? s := getitem res (PStr (lit "streams")) in py_iter s) = Ok streams
    /\ for_each (fun needed stream =>
                   for_each (visit_field stream) (dict_keys needed) needed)
                streams needed_init = Ok needed
    /\ py_get res (PStr (lit "format")) (PDict []) = Ok (PDict fmt)
    /\ dict_lookup (PStr (lit "codec_name")) needed = Some cn
    /\ dict_lookup (PStr (lit "profile")) needed = Some pr
    /\ d = dict_set (PStr (lit "video_profile")) pr
             (dict_set (PStr (lit "duration"))
                (match dict_lookup (PStr (lit "duration")) fmt with
                 | Some v => v
                 | None => PInt 0
                 end)
                (dict_set (PStr (lit "codec")) cn
                   (dict_set (PStr (lit "bitrate"))
                      (match dict_lookup (PStr (lit "bit_rate")) fmt with
                       | Some v => v
                       | None => PInt (-1)
                       end)
                      needed))).
Proof.
  unfold ffprobe_needed.
  destruct (getitem res (PStr (lit "streams"))) as [s| |]; simpl; try easy.
  destruct (py_iter s) as [streams| |]; simpl; try easy.
  destruct (for_each _ streams needed_init) as [needed| |] eqn:Hloop; simpl;
    try easy.
  destruct (py_get res (PStr (lit "format")) (PDict [])) as [f| |] eqn:Hf;
    simpl; try easy.
  destruct f as [| | | | | |fmt]; simpl; try easy.
  pose proof (outer_loop_keys _ _ _ needed_init_str_keys Hloop) as Hkeys.
  set (n1 := dict_set (PStr (lit "bitrate")) _ needed).
  assert (Hcn : dict_lookup (PStr (lit "codec_name")) n1
                = dict_lookup (PStr (lit "codec_name")) needed)
    by (apply dict_lookup_set_ne; discriminate).
  destruct (dict_lookup (PStr (lit "codec_name")) needed) as [cn|] eqn:Ecn.
  2:{ apply dict_lookup_none in Ecn. exfalso. apply Ecn. rewrite Hkeys.
      vm_compute. tauto. }
  rewrite Hcn. simpl.
  set (n2 := dict_set (PStr (lit "codec")) cn n1).
  set (n3 := dict_set (PStr (lit "duration")) _ n2).
  assert (Hpr : dict_lookup (PStr (lit "profile")) n3
                = dict_lookup (PStr (lit "profile")) needed).
  { unfold n3, n2, n1. rewrite !dict_lookup_set_ne by discriminate.
    reflexivity. }
  destruct (dict_lookup (PStr (lit "profile")) needed) as [pr|] eqn:Epr.
  2:{ apply dict_lookup_none in Epr. exfalso. apply Epr. rewrite Hkeys.
      vm_compute. tauto. }
  rewrite Hpr. simpl. intros [= <-].
  exists streams, needed, fmt, cn, pr. repeat split; auto.
Qed.

(** The shape of every result of [ffprobe_needed]. *)
Lemma ffprobe_needed_shape res d :
  ffprobe_needed res = Ok d ->
  dict_keys d = result_keys
  /\ dict_lookup (PStr (lit "codec")) d
     = dict_lookup (PStr (lit "codec_name")) d
  /\ dict_lookup (PStr (lit "video_profile")) d
     = dict_lookup (PStr (lit "profile")) d
  /\ (format_entry res (lit "bit_rate") = None ->
      dict_lookup (PStr (lit "bitrate")) d = Some (PInt (-1)))
  /\ (format_entry res (lit "duration") = None ->
      dict_lookup (PStr (lit "duration")) d = Some (PInt 0)).
Proof.
  intros H. destruct (ffprobe_needed_inv _ _ H)
    as (streams & needed & fmt & cn & pr & _ & Hloop & Hfmt & Hcn & Hpr & ->).
  pose proof (outer_loop_keys _ _ _ needed_init_str_keys Hloop) as Hkeys.
  assert (Hfresh : forall s, ~ In (PStr s) (dict_keys needed_init) ->
                             dict_lookup (PStr s) needed = None).
  { intros s Hs. apply dict_lookup_none. now rewrite Hkeys. }
  repeat split.
  - rewrite dict_keys_set_absent.
    2:{ rewrite !dict_lookup_set_ne by discriminate. apply Hfresh.
        vm_compute. intuition discriminate. }
    rewrite dict_keys_set_absent.
    2:{ rewrite !dict_lookup_set_ne by discriminate. apply Hfresh.
        vm_compute. intuition discriminate. }
    rewrite dict_keys_set_absent.
    2:{ rewrite !dict_lookup_set_ne by discriminate. apply Hfresh.
        vm_compute. intuition discriminate. }
    rewrite dict_keys_set_absent.
    2:{ apply Hfresh. vm_compute. intuition discriminate. }
    rewrite Hkeys. reflexivity.
  - rewrite (dict_lookup_set_ne (lit "video_profile") (lit "codec")),
      (dict_lookup_set_ne (lit "duration") (lit "codec")),
      dict_lookup_set_eq by discriminate.
    rewrite !dict_lookup_set_ne by discriminate. now rewrite Hcn.
  - rewrite dict_lookup_set_eq.
    rewrite !dict_lookup_set_ne by discriminate. now rewrite Hpr.
  - unfold format_entry. rewrite Hfmt. intros ->.
    rewrite !dict_lookup_set_ne by discriminate.
    apply dict_lookup_set_eq.
  - unfold format_entry. rewrite Hfmt. intros ->.
    rewrite !dict_lookup_set_ne by discriminate.
    apply dict_lookup_set_eq.
Qed.

(** A call of [ffprobe] that returns has run the tool once, with exit
    status 0, and built its result from the parsed output. *)
Lemma ffprobe_ok_inv E filename w d w' :
  ffprobe E filename w = (Ok d, w') ->
  exists output text res,
    exec E (ffprobe_cmd filename) = Exited 0 output
    /\ utf8_decode output = Some text
    /\ json_loads (strip text) = Ok res
    /\ ffprobe_needed res = Ok d
    /\ w' = after w [] [ffprobe_cmd filename].
Proof.
  unfold ffprobe. destruct (which E (lit "ffprobe")); [|easy].
  unfold bind at 1. unfold isfile.
  destruct (bool_decide (is_Some (files w !! filename))); simpl; [|easy].
  unfold bind at 1. unfold run_cmd. simpl.
  unfold bind at 1. unfold try_except, bind at 1. unfold check_output.
  destruct (exec E (ffprobe_cmd filename)) as [e|status output] eqn:Hexec.
  - unfold raise, bind, lift, decode.
    destruct e as [| | ? ? out| | | | | | | | | | |]; simpl; try easy.
    destruct (utf8_decode out); simpl; easy.
  - destruct (status =? 0) eqn:Hst.
    + apply Z.eqb_eq in Hst. subst status.
      unfold lift, decode.
      destruct (utf8_decode output) as [text|] eqn:Hdec; simpl; [|easy].
      unfold ret. simpl.
      destruct (length (strip text) =? 0)%nat; [easy|].
      unfold bind, lift.
      destruct (json_loads (strip text)) as [res| |] eqn:Hres; try easy.
      intros [= Hd <-].
      exists output, text, res. repeat split; auto.
      unfold after. now rewrite app_nil_r.
    + unfold bind, lift, raise, decode.
      destruct (utf8_decode output); simpl; easy.
Qed.



(** ** Rounding: division to binary64, then [round] *)

Lemma rhe_spec x d :
  0 < d ->
  - d <= 2 * (round_half_even x d * d - x) <= d
  /\ (Z.abs (2 * (round_half_even x d * d - x)) = d ->
      Z.even (round_half_even x d) = true).
Proof.
  intros Hd. unfold round_half_even.
  pose proof (Z.div_mod x d ltac:(lia)) as Hdm.
  pose proof (Z.mod_pos_bound x d Hd) as Hr.
  set (q := x / d) in *. set (r := x mod d) in *.
  destruct (2 * r <? d) eqn:E1; [apply Z.ltb_lt in E1|apply Z.ltb_ge in E1].
  - split; [nia|]. intros H. nia.
  - destruct (d <? 2 * r) eqn:E2; [apply Z.ltb_lt in E2|apply Z.ltb_ge in E2].
    + split; [nia|]. intros H. nia.
    + destruct (Z.even q) eqn:E3.
      * split; [nia|]. auto.
      * split; [nia|]. intros _. rewrite Z.even_add, E3. reflexivity.
Qed.

Lemma rhe_unique x d r :
  0 < d ->
  - d <= 2 * (r * d - x) <= d ->
  (Z.abs (2 * (r * d - x)) = d -> Z.even r = true) ->
  round_half_even x d = r.
Proof.
  intros Hd Hb Ht.
  destruct (rhe_spec x d Hd) as [Hb' Ht'].
  set (r' := round_half_even x d) in *.
  assert (Hclose : -1 <= r - r' <= 1) by nia.
  destruct (Z.eq_dec r r') as [|Hne]; [congruence|].
  exfalso.
  assert (Hc : r = r' + 1 \/ r = r' - 1) by lia.
  assert (Z.abs (2 * (r * d - x)) = d) by nia.
  assert (Z.abs (2 * (r' * d - x)) = d) by nia.
  specialize (Ht H). specialize (Ht' H0).
  destruct Hc as [-> | ->].
  - rewrite Z.even_add, Ht' in Ht. discriminate.
  - rewrite Z.even_sub, Ht' in Ht. discriminate.
Qed.

Lemma rhe_twice s n d K :
  (s = 1 \/ s = -1) -> 0 <= n -> 0 < d -> d < K -> Z.even K = true ->
  round_half_even (s * round_half_even (n * K) d) K = round_half_even (s * n) d.
Proof.
  intros Hs Hn Hd HK Hev.
  assert (HK0 : 0 < K) by lia.
  destruct (rhe_spec (n * K) d Hd) as [HB _].
  destruct (rhe_spec (s * n) d Hd) as [HA HAt].
  set (m := round_half_even (n * K) d) in *.
  set (t := round_half_even (s * n) d) in *.
  apply rhe_unique; [assumption| |].
  - destruct (Z.eq_dec (Z.abs (2 * (t * d - s * n))) d) as [Htie|Hnt].
    + (* the quotient is a half-integer: m is exact *)
      apply Z.even_spec in Hev. destruct Hev as [h Hh].
      assert (Hm : m = n * K / d * 1 /\ m * d = n * K).
      { assert (Hex : exists c, n * K = c * d).
        { assert (Hc : 2 * (t * d - s * n) = d \/ 2 * (t * d - s * n) = - d)
            by lia.
          destruct Hs as [-> | ->]; destruct Hc as [Hc|Hc].
          - exists ((2 * t - 1) * h). nia.
          - exists ((2 * t + 1) * h). nia.
          - exists (- (2 * t - 1) * h). nia.
          - exists (- (2 * t + 1) * h). nia. }
        destruct Hex as [c Hc].
        assert (m = c).
        { unfold m. apply rhe_unique; [assumption|lia|]. intros H. lia. }
        subst c. split; [|lia]. rewrite Hc, Z.div_mul by lia. lia. }
      destruct Hm as [_ Hm]. destruct Hs as [-> | ->]; nia.
    + assert (Z.abs (2 * (t * d - s * n)) <= d - 1) by lia.
      destruct Hs as [-> | ->]; nia.
  - intros Htie.
    destruct (Z.eq_dec (Z.abs (2 * (t * d - s * n))) d) as [H|Hnt]; [auto|].
    exfalso.
    assert (Z.abs (2 * (t * d - s * n)) <= d - 1) by lia.
    destruct Hs as [-> | ->]; nia.
Qed.

Lemma rhe_small s m K :
  (s = 1 \/ s = -1) -> 0 <= m -> 2 * m < K ->
  round_half_even (s * m) K = 0.
Proof.
  intros Hs Hm HK. apply rhe_unique; [lia| |].
  - destruct Hs as [-> | ->]; lia.
  - intros H. destruct Hs as [-> | ->]; lia.
Qed.

Lemma int_truediv_round a b :
  b <> 0 -> Z.abs a < 2 ^ 52 ->
  exists f, int_truediv a b = Ok f /\ round_float f = round_ratio a b.
Proof.
  intros Hb Ha. unfold int_truediv, round_ratio.
  apply Z.eqb_neq in Hb. rewrite Hb. apply Z.eqb_neq in Hb.
  destruct (a =? 0) eqn:Ea.
  - apply Z.eqb_eq in Ea. subst a. eexists. split; [reflexivity|].
    unfold round_float. simpl. unfold round_half_even.
    rewrite Z.div_0_l, Z.mod_0_l by lia.
    destruct (2 * 0 <? Z.abs b) eqn:E; [reflexivity|].
    apply Z.ltb_ge in E. lia.
  - apply Z.eqb_neq in Ea.
    set (n := Z.abs a). set (d := Z.abs b).
    assert (Hn : 0 < n) by (unfold n; lia).
    assert (Hd : 0 < d) by (unfold d; lia).
    pose proof (Z.log2_spec n Hn) as Hln.
    pose proof (Z.log2_spec d Hd) as Hld.
    pose proof (Z.log2_nonneg n) as Hln0.
    pose proof (Z.log2_nonneg d) as Hld0.
    assert (Hln' : Z.log2 n < 52) by (apply Z.log2_lt_pow2; assumption).
    set (e1 := if d * 2 ^ Z.log2 n <=? n * 2 ^ Z.log2 d
               then Z.log2 n - Z.log2 d - 52 else Z.log2 n - Z.log2 d - 53).
    assert (He1 : Z.log2 n - Z.log2 d - 53 <= e1 <= Z.log2 n - Z.log2 d - 52)
      by (unfold e1; destruct (_ <=? _); lia).
    set (e := Z.max e1 (-1074)).
    assert (He : -1074 <= e < 0) by (unfold e; lia).
    destruct (0 <=? e) eqn:E0; [apply Z.leb_le in E0; lia|].
    destruct (971 <? e) eqn:E1; [apply Z.ltb_lt in E1; lia|].
    destruct (e =? 971) eqn:E2; [apply Z.eqb_eq in E2; lia|].
    simpl. eexists. split; [reflexivity|].
    unfold round_float. simpl. rewrite E0.
    replace (a * Z.sgn b) with (Z.sgn a * Z.sgn b * n) by (unfold n; lia).
    assert (Hs : Z.sgn a * Z.sgn b = 1 \/ Z.sgn a * Z.sgn b = -1) by lia.
    assert (Hev : Z.even (2 ^ (- e)) = true).
    { replace (- e) with (Z.succ (- e - 1)) by lia.
      rewrite Z.pow_succ_r by lia. rewrite Z.even_mul. reflexivity. }
    assert (HK0 : 0 < 2 ^ (- e)) by (apply Z.pow_pos_nonneg; lia).
    destruct (Z.lt_ge_cases d (2 ^ (- e))) as [Hlt | Hge].
    + apply rhe_twice; [assumption | lia | assumption..].
    + (* the quotient is below the smallest float: both sides are 0 *)
      assert (He1074 : e = -1074).
      { destruct (Z.eq_dec e (-1074)) as [|Hne]; [assumption|].
        exfalso. assert (e = e1) by (unfold e in *; lia).
        assert (2 ^ Z.succ (Z.log2 d) <= 2 ^ (- e))
          by (apply Z.pow_le_mono_r; lia).
        lia. }
      rewrite He1074 in *. change (- -1074) with 1074 in *.
      destruct (rhe_spec (n * 2 ^ 1074) d Hd) as [Hm _].
      set (m := round_half_even (n * 2 ^ 1074) d) in *.
      assert (Hm0 : 0 <= m <= n) by nia.
      assert (H52 : 2 ^ 53 < 2 ^ 1074) by (apply Z.pow_lt_mono_r; lia).
      rewrite rhe_small by (auto; lia).
      symmetry. apply rhe_small; auto; lia.
Qed.

(** ** Decimal integer literals *)
Lemma digits_value_snoc ds c :
  digits_value (ds ++ c :: nil) = 10 * digits_value ds + Z.of_N (c - chr "0").
Proof. unfold digits_value. now rewrite fold_left_app. Qed.

Lemma digits_of_value f n :
  (n < 10 ^ N.of_nat f)%N -> digits_value (digits_of f n) = Z.of_N n.
Proof.
  revert n. induction f as [|f IH]; intros n Hn.
  - simpl in Hn. assert (n = 0%N) by lia. now subst.
  - cbn [digits_of]. rewrite digits_value_snoc.
    change (chr "0") with 48%N.
    rewrite (N.add_comm 48), N.add_sub.
    destruct (n <? 10)%N eqn:E.
    + apply N.ltb_lt in E. rewrite N.mod_small by assumption. reflexivity.
    + apply N.ltb_ge in E. rewrite IH.
      * rewrite (N.div_mod n 10) at 3 by lia. lia.
      * rewrite Nat2N.inj_succ, N.pow_succ_r' in Hn.
        apply N.Div0.div_lt_upper_bound. assumption.
Qed.

Lemma is_digit_spec c : is_digit c = true <-> (48 <= c <= 57)%N.
Proof.
  unfold is_digit, in_range. change (chr "0") with 48%N.
  change (chr "9") with 57%N.
  rewrite andb_true_iff, !N.leb_le. tauto.
Qed.

Lemma forallb_snoc {A} (p : A -> bool) l x :
  forallb p (l ++ x :: nil) = forallb p l && p x.
Proof. rewrite forallb_app. simpl. now rewrite andb_true_r. Qed.

Lemma digits_of_all_digits f n : forallb is_digit (digits_of f n) = true.
Proof.
  revert n. induction f as [|f IH]; intros n; [reflexivity|].
  cbn [digits_of]. rewrite forallb_snoc. apply andb_true_iff. split.
  - destruct (n <? 10)%N; [reflexivity | apply IH].
  - apply is_digit_spec. change (chr "0") with 48%N.
    assert (Hm : (n mod 10 < 10)%N) by (apply N.mod_upper_bound; lia).
    revert Hm. generalize (n mod 10)%N. intros x Hx. lia.
Qed.

Lemma digits_of_head f n :
  n <> 0%N -> (n < 10 ^ N.of_nat (S f))%N ->
  exists c r, digits_of (S f) n = c :: r /\ c <> 48%N.
Proof.
  revert n. induction f as [|f IH]; intros n Hn Hlt.
  - cbn [digits_of]. change (10 ^ N.of_nat 1)%N with 10%N in Hlt.
    apply N.ltb_lt in Hlt. rewrite Hlt. simpl.
    apply N.ltb_lt in Hlt. rewrite N.mod_small by assumption.
    eexists _, _. split; [reflexivity|]. change (chr "0") with 48%N. lia.
  - remember (S f) as f1. cbn [digits_of].
    destruct (n <? 10)%N eqn:E.
    + apply N.ltb_lt in E. rewrite N.mod_small by assumption. simpl.
      eexists _, _. split; [reflexivity|]. change (chr "0") with 48%N. lia.
    + apply N.ltb_ge in E. subst f1.
      destruct (IH (n / 10)%N) as (c & r & Heq & Hc).
      * intros H0. apply N.div_small_iff in H0; lia.
      * rewrite Nat2N.inj_succ, N.pow_succ_r' in Hlt.
        apply N.Div0.div_lt_upper_bound. assumption.
      * rewrite Heq. simpl. eauto.
Qed.

Lemma decimal_fuel n : (n < 10 ^ N.of_nat (S (N.to_nat (N.log2 n))))%N.
Proof.
  rewrite Nat2N.inj_succ, N2Nat.id.
  destruct (N.eq_dec n 0%N) as [->|Hn]; [reflexivity|].
  pose proof (N.log2_spec n ltac:(lia)) as [_ H].
  eapply N.lt_le_trans; [exact H|].
  apply N.pow_le_mono_l. lia.
Qed.

Lemma int_literal_int_str z : int_literal (int_str z) = Some (Ok z).
Proof.
  unfold int_str.
  set (n := Z.to_N (Z.abs z)).
  pose proof (decimal_fuel n) as Hfuel.
  pose proof (digits_of_all_digits (S (N.to_nat (N.log2 n))) n) as Hall.
  pose proof (digits_of_value _ _ Hfuel) as Hval.
  destruct (N.eq_dec n 0%N) as [Hn0|Hn0].
  - assert (z = 0) by lia. subst z. reflexivity.
  - destruct (digits_of_head _ _ Hn0 Hfuel) as (c & r & Heq & Hc).
    rewrite Heq in *.
    assert (Hcd : is_digit c = true) by (simpl in Hall; now apply andb_true_iff in Hall).
    apply is_digit_spec in Hcd.
    assert (Hc0 : N.eqb c (chr "0") = false)
      by (apply N.eqb_neq; change (chr "0") with 48%N; lia).
    destruct (z <? 0) eqn:Ez.
    + apply Z.ltb_lt in Ez. unfold int_literal.
      change (lit "-" ++ c :: r) with (45%N :: c :: r).
      cbv iota beta. change (N.eqb 45 (chr "-")) with true. cbv iota beta.
      rewrite Hall, Hc0. simpl. rewrite Hval. do 2 f_equal. lia.
    + apply Z.ltb_ge in Ez. unfold int_literal. simpl app.
      assert (Hm : N.eqb c (chr "-") = false)
        by (apply N.eqb_neq; change (chr "-") with 45%N; lia).
      cbv iota beta. rewrite Hm. cbv iota beta. rewrite Hall, Hc0. simpl.
      rewrite Hval.
      do 2 f_equal. lia.
Qed.

Lemma split_on_app sep a b :
  forallb (fun c => negb (N.eqb c sep)) a = true ->
  split_on sep (a ++ sep :: b) = a :: split_on sep b.
Proof.
  induction a as [|x a IH]; simpl.
  - now rewrite N.eqb_refl.
  - rewrite andb_true_iff, negb_true_iff. intros [Hx Ha].
    rewrite Hx, IH by assumption. reflexivity.
Qed.

Lemma split_on_none sep a :
  forallb (fun c => negb (N.eqb c sep)) a = true ->
  split_on sep a = a :: nil.
Proof.
  induction a as [|x a IH]; simpl; [reflexivity|].
  rewrite andb_true_iff, negb_true_iff. intros [Hx Ha].
  rewrite Hx, IH by assumption. reflexivity.
Qed.

Lemma int_str_no_slash z :
  forallb (fun c => negb (N.eqb c (chr "/"))) (int_str z) = true.
Proof.
  unfold int_str. rewrite forallb_app. apply andb_true_iff. split.
  - destruct (z <? 0); reflexivity.
  - pose proof (digits_of_all_digits
                  (S (N.to_nat (N.log2 (Z.to_N (Z.abs z)))))
                  (Z.to_N (Z.abs z))) as H.
    rewrite forallb_forall in *. intros c Hc. apply H in Hc.
    apply is_digit_spec in Hc. apply negb_true_iff, N.eqb_neq.
    change (chr "/") with 47%N. lia.
Qed.

Lemma eval_ratio_int_str a b :
  eval_ratio (int_str a ++ lit "/" ++ int_str b) = int_truediv a b.
Proof.
  unfold eval_ratio. change (lit "/" ++ int_str b) with (chr "/" :: int_str b).
  rewrite split_on_app by apply int_str_no_slash.
  rewrite split_on_none by apply int_str_no_slash.
  now rewrite !int_literal_int_str.
Qed.

(** ** The loops of the media prober over streams of dicts *)

Lemma inner_loop_other stream names needed needed' s :
  for_each (visit_field (PDict stream)) (map PStr names) needed = Ok needed' ->
  ~ In s names ->
  dict_lookup (PStr s) needed' = dict_lookup (PStr s) needed.
Proof.
  revert needed. induction names as [|a names IH]; intros needed; simpl.
  - now intros [= <-].
  - rewrite visit_field_dict. intros H Hs.
    assert (Ha : a <> s) by tauto. assert (Hs' : ~ In s names) by tauto.
    destruct (dict_lookup (PStr a) stream) as [v|]; simpl in H.
    + destruct (field_value a v) as [x| |]; simpl in H; try easy.
      rewrite (IH _ H Hs'). now apply dict_lookup_set_ne.
    + now apply IH.
Qed.

Lemma inner_loop_field stream names needed needed' s :
  List.NoDup names ->
  for_each (visit_field (PDict stream)) (map PStr names) needed = Ok needed' ->
  In s names ->
  match dict_lookup (PStr s) stream with
  | None => dict_lookup (PStr s) needed' = dict_lookup (PStr s) needed
  | Some v =>
      exists x, field_value s v = Ok x /\ dict_lookup (PStr s) needed' = Some x
  end.
Proof.
  intros Hnd. revert needed.
  induction Hnd as [|a names Ha Hnd IH]; intros needed; simpl; [easy|].
  rewrite visit_field_dict. intros H [<- | Hs].
  - destruct (dict_lookup (PStr a) stream) as [v|]; simpl in H.
    + destruct (field_value a v) as [x| |]; simpl in H; try easy.
      exists x. split; [reflexivity|].
      rewrite (inner_loop_other _ _ _ _ _ H Ha). apply dict_lookup_set_eq.
    + apply (inner_loop_other _ _ _ _ _ H Ha).
  - assert (Hne : a <> s) by (intros ->; contradiction).
    destruct (dict_lookup (PStr a) stream) as [v|]; simpl in H.
    + destruct (field_value a v) as [x| |]; simpl in H; try easy.
      specialize (IH _ H Hs).
      destruct (dict_lookup (PStr s) stream); [assumption|].
      rewrite IH. now apply dict_lookup_set_ne.
    + now apply IH.
Qed.

Lemma outer_loop_field ss names needed needed' s :
  List.NoDup names ->
  dict_keys needed = map PStr names ->
  for_each (fun needed stream =>
              for_each (visit_field stream) (dict_keys needed) needed)
           (map PDict ss) needed = Ok needed' ->
  In s names ->
  match last_value (PStr s) ss with
  | None => dict_lookup (PStr s) needed' = dict_lookup (PStr s) needed
  | Some v =>
      exists x, field_value s v = Ok x /\ dict_lookup (PStr s) needed' = Some x
  end.
Proof.
  intros Hnd. revert needed.
  induction ss as [|stream ss IH]; intros needed Hkeys; simpl.
  - now intros [= <-].
  - destruct (for_each (visit_field (PDict stream)) (dict_keys needed) needed)
      as [n1| |] eqn:E; simpl; try easy.
    intros H Hs.
    assert (Hk1 : dict_keys n1 = map PStr names).
    { rewrite <- Hkeys. apply (inner_loop_keys (PDict stream) (dict_keys needed)).
      - rewrite Hkeys. apply List.Forall_forall. intros k Hk.
        apply in_map_iff in Hk. destruct Hk as [x [<- _]]. eauto.
      - auto.
      - assumption. }
    specialize (IH n1 Hk1 H Hs).
    destruct (last_value (PStr s) ss) as [v|]; [assumption|].
    rewrite Hkeys in E.
    pose proof (inner_loop_field _ _ _ _ s Hnd E Hs) as Hin.
    destruct (dict_lookup (PStr s) stream) as [v|].
    + destruct Hin as [x [Hx Hl]]. exists x. split; [assumption|].
      now rewrite IH.
    + now rewrite IH.
Qed.

Lemma inner_loop_total stream names needed :
  (forall v, dict_lookup (PStr avg_frame_rate) stream = Some v ->
             exists x, round_eval v = Ok x) ->
  exists needed',
    for_each (visit_field (PDict stream)) (map PStr names) needed = Ok needed'.
Proof.
  intros Hrate. revert needed.
  induction names as [|a names IH]; intros needed; simpl; [eauto|].
  rewrite visit_field_dict.
  destruct (dict_lookup (PStr a) stream) as [v|] eqn:Ea; simpl; [|apply IH].
  unfold field_value. destruct (str_eqb a avg_frame_rate) eqn:E.
  - apply str_eqb_eq in E. subst a. destruct (Hrate v Ea) as [x ->].
    simpl. apply IH.
  - simpl. apply IH.
Qed.

Lemma field_names_nodup : List.NoDup field_names.
Proof.
  unfold field_names.
  repeat (constructor; [simpl; intuition discriminate|]). constructor.
Qed.

Lemma round_ratio_nearest n d :
  d <> 0 -> nearest_integer (round_ratio n d) n d.
Proof.
  intros Hd. unfold nearest_integer, round_ratio.
  destruct (Z.lt_trichotomy d 0) as [Hlt | [Heq | Hgt]]; [|contradiction|].
  - rewrite (Z.sgn_neg d), (Z.abs_neq d) by lia.
    destruct (rhe_spec (n * -1) (- d) ltac:(lia)) as [H _].
    set (r := round_half_even _ _) in *. lia.
  - rewrite (Z.sgn_pos d), (Z.abs_eq d) by lia.
    destruct (rhe_spec (n * 1) d ltac:(lia)) as [H _].
    set (r := round_half_even _ _) in *. lia.
Qed.

Lemma round_eval_int v x : round_eval v = Ok x -> exists r, x = PInt r.
Proof.
  destruct v; simpl; try easy.
  destruct (eval_ratio s); simpl; try easy. intros [= <-]. eauto.
Qed.

Lemma field_names_keys : dict_keys needed_init = map PStr field_names.
Proof. reflexivity. Qed.

Lemma field_names_init s :
  In s field_names ->
  dict_lookup (PStr s) needed_init = Some (PStr (lit "unknown"))
  /\ s <> lit "bitrate" /\ s <> lit "codec" /\ s <> lit "duration"
  /\ s <> lit "video_profile".
Proof.
  intros Hs. simpl in Hs.
  repeat (destruct Hs as [<- | Hs]; [repeat split; discriminate|]).
  contradiction.
Qed.

(** Each of the seven fields of the result, for an output whose streams
    are dicts: the last stream that carries the field decides. *)
Lemma ffprobe_needed_field top ss d s :
  dict_lookup (PStr (lit "streams")) top = Some (PList (map PDict ss)) ->
  ffprobe_needed (PDict top) = Ok d ->
  In s field_names ->
  match last_value (PStr s) ss with
  | None => dict_lookup (PStr s) d = Some (PStr (lit "unknown"))
  | Some v =>
      exists x, field_value s v = Ok x /\ dict_lookup (PStr s) d = Some x
  end.
Proof.
  intros Hstreams H Hs.
  destruct (ffprobe_needed_inv _ _ H)
    as (streams & needed & fmt & cn & pr & Hiter & Hloop & _ & _ & _ & ->).
  simpl in Hiter. rewrite Hstreams in Hiter. simpl in Hiter.
  injection Hiter as <-.
  destruct (field_names_init s Hs) as (Hinit & H1 & H2 & H3 & H4).
  pose proof (outer_loop_field ss field_names needed_init needed s
                field_names_nodup field_names_keys Hloop Hs) as Hf.
  rewrite !dict_lookup_set_ne by congruence.
  destruct (last_value (PStr s) ss); [assumption|]. now rewrite Hf.
Qed.

(** When the loops end well and the format section, if there is one, is
    a dict, [ffprobe_needed] returns. *)
Lemma ffprobe_needed_total top ss needed :
  dict_lookup (PStr (lit "streams")) top = Some (PList ss) ->
  for_each (fun needed stream =>
              for_each (visit_field stream) (dict_keys needed) needed)
           ss needed_init = Ok needed ->
  (forall f, dict_lookup (PStr (lit "format")) top = Some f ->
             exists fd, f = PDict fd) ->
  exists d, ffprobe_needed (PDict top) = Ok d.
Proof.
  intros Hstreams Hloop Hformat.
  pose proof (outer_loop_keys _ _ _ needed_init_str_keys Hloop) as Hkeys.
  unfold ffprobe_needed. simpl. rewrite Hstreams. simpl. rewrite Hloop. simpl.
  assert (Hfmt : exists fd,
             match dict_lookup (PStr (lit "format")) top with
             | Some v => v
             | None => PDict []
             end = PDict fd).
  { destruct (dict_lookup (PStr (lit "format")) top) as [f|]; eauto. }
  destruct Hfmt as [fd ->]. simpl.
  rewrite dict_lookup_set_ne by discriminate.
  destruct (dict_lookup (PStr (lit "codec_name")) needed) as [cn|] eqn:Ecn.
  2:{ apply dict_lookup_none in Ecn. exfalso. apply Ecn. rewrite Hkeys.
      vm_compute. tauto. }
  simpl. rewrite !dict_lookup_set_ne by discriminate.
  destruct (dict_lookup (PStr (lit "profile")) needed) as [pr|] eqn:Epr.
  2:{ apply dict_lookup_none in Epr. exfalso. apply Epr. rewrite Hkeys.
      vm_compute. tauto. }
  simpl. eauto.
Qed.

(** C7, as stated, fails for the frame rate: the stream carries the text
    [30000/1001], the result holds the integer 30. *)
Lemma ffprobe_frame_rate_not_copied :
  dict_lookup (PStr avg_frame_rate) sample_stream
  = Some (PStr (lit "30000/1001"))
  /\ ffprobe_needed sample_res = Ok sample_needed
  /\ dict_lookup (PStr avg_frame_rate) sample_needed = Some (PInt 30).
Proof. repeat split; vm_compute; reflexivity. Qed.

(** C7 (amended): in every result of the prober on a parsed output whose
    streams are dicts, each of the six fields other than the frame rate
    holds the value the last stream carrying the field has for it, the
    frame rate holds [round(eval(...))] of that value, and a field that no
    stream carries holds ["unknown"].  With the one selected stream in the
    list, the last stream is the first video stream. *)
Theorem ffprobe_stream_fields (top : items) (ss : list items) (d : items)
    (s : str) :
  dict_lookup (PStr (lit "streams")) top = Some (PList (map PDict ss)) ->
  ffprobe_needed (PDict top) = Ok d ->
  In s field_names ->
  match last_value (PStr s) ss with
  | None => dict_lookup (PStr s) d = Some (PStr (lit "unknown"))
  | Some v =>
      if str_eqb s avg_frame_rate
      then exists r, round_eval v = Ok (PInt r)
                     /\ dict_lookup (PStr s) d = Some (PInt r)
      else dict_lookup (PStr s) d = Some v
  end
  /\ (forall stream, ss = [stream] ->
        last_value (PStr s) ss = dict_lookup (PStr s) stream).
Proof.
  intros Hstreams H Hs. split; [|now intros stream ->].
  pose proof (ffprobe_needed_field top ss d s Hstreams H Hs) as Hf.
  destruct (last_value (PStr s) ss) as [v|]; [|assumption].
  destruct Hf as [x [Hx Hl]]. unfold field_value in Hx.
  destruct (str_eqb s avg_frame_rate).
  - destruct (round_eval_int _ _ Hx) as [r ->]. eauto.
  - now injection Hx as <-.
Qed.

Lemma ffprobe_stream_fields_witness :
  dict_lookup (PStr (lit "width")) sample_needed = Some (PInt 1920).
Proof.
  destruct (ffprobe_stream_fields
              [ (PStr (lit "streams"), PList (map PDict [sample_stream]));
                (PStr (lit "format"),
                 PDict [ (PStr (lit "filename"), PStr (lit "a.mp4")) ]) ]
              [sample_stream] sample_needed (lit "width"))
    as [H _].
  - reflexivity.
  - vm_compute. reflexivity.
  - simpl. tauto.
  - exact H.
Defined.




(** ** JSON persistence: what is written is read back *)

Lemma hex_value_digit d : (d < 16)%N -> hex_value (hex_digit d) = Some d.
Proof.
  intros Hd.
  assert (Hcases : In d (map N.of_nat (seq 0 16))).
  { apply in_map_iff. exists (N.to_nat d). split; [lia|]. apply in_seq. lia. }
  simpl in Hcases.
  repeat (destruct Hcases as [<- | Hcases]; [reflexivity|]). contradiction.
Qed.

Lemma hex4_roundtrip c rest :
  (c < 65536)%N ->
  exists h1 h2 h3 h4,
    hex 4 c ++ rest = h1 :: h2 :: h3 :: h4 :: rest
    /\ hex4_value h1 h2 h3 h4 = Some c.
Proof.
  intros Hc. cbn [hex app].
  eexists _, _, _, _. split; [reflexivity|].
  unfold hex4_value.
  assert (H16 : (16 <> 0)%N) by lia.
  pose proof (N.div_mod c 16 H16) as E0.
  pose proof (N.mod_upper_bound c 16 H16) as B0.
  pose proof (N.div_mod (c / 16) 16 H16) as E1.
  pose proof (N.mod_upper_bound (c / 16) 16 H16) as B1.
  pose proof (N.div_mod (c / 16 / 16) 16 H16) as E2.
  pose proof (N.mod_upper_bound (c / 16 / 16) 16 H16) as B2.
  pose proof (N.div_mod (c / 16 / 16 / 16) 16 H16) as E3.
  pose proof (N.mod_upper_bound (c / 16 / 16 / 16) 16 H16) as B3.
  rewrite !hex_value_digit by assumption.
  f_equal.
  revert E0 E1 E2 E3 B0 B1 B2 B3.
  generalize (c mod 16)%N (c / 16 mod 16)%N (c / 16 / 16 mod 16)%N
             (c / 16 / 16 / 16 mod 16)%N (c / 16 / 16 / 16 / 16)%N.
  generalize (c / 16 / 16 / 16)%N (c / 16 / 16)%N (c / 16)%N.
  intros. lia.
Qed.

Lemma scanstring_u h1 h2 h3 h4 r2 :
  scanstring (backslash :: chr "u" :: h1 :: h2 :: h3 :: h4 :: r2)
  = match hex4_value h1 h2 h3 h4 with
    | None => Raise JSONDecodeError
    | Some u1 =>
        if is_high_surrogate u1 then
          match r2 with
          | b :: u :: g1 :: g2 :: g3 :: g4 :: r3 =>
              if N.eqb b backslash && N.eqb u (chr "u") then
                match hex4_value g1 g2 g3 g4 with
                | None => Raise JSONDecodeError
                | Some u2 =>
                    if is_low_surrogate u2
                    then push (join_surrogates u1 u2) (scanstring r3)
                    else push u1 (scanstring r2)
                end
              else push u1 (scanstring r2)
          | _ => push u1 (scanstring r2)
          end
        else push u1 (scanstring r2)
    end.
Proof. reflexivity. Qed.

Lemma scanstring_plain c r :
  c <> dq -> c <> backslash -> (32 <= c)%N ->
  scanstring (c :: r) = push c (scanstring r).
Proof.
  intros H1 H2 H3. cbn [scanstring].
  apply N.eqb_neq in H1, H2. rewrite H1, H2.
  destruct (c <? 32)%N eqn:E; [apply N.ltb_lt in E; lia | reflexivity].
Qed.

Lemma scan_escape_char c tail :
  is_scalar c = true ->
  scanstring (escape_char c ++ tail) = push c (scanstring tail).
Proof.
  unfold is_scalar, in_range. rewrite andb_true_iff, negb_true_iff.
  rewrite andb_false_iff, N.ltb_lt, !N.leb_gt. intros [Hmax Hsur].
  unfold escape_char.
  destruct (N.eqb c dq) eqn:E1; [apply N.eqb_eq in E1; now subst|].
  destruct (N.eqb c backslash) eqn:E2; [apply N.eqb_eq in E2; now subst|].
  destruct (N.eqb c 10) eqn:E3; [apply N.eqb_eq in E3; now subst|].
  destruct (N.eqb c 13) eqn:E4; [apply N.eqb_eq in E4; now subst|].
  destruct (N.eqb c 9) eqn:E5; [apply N.eqb_eq in E5; now subst|].
  destruct (N.eqb c 8) eqn:E6; [apply N.eqb_eq in E6; now subst|].
  destruct (N.eqb c 12) eqn:E7; [apply N.eqb_eq in E7; now subst|].
  apply N.eqb_neq in E1, E2.
  destruct (in_range 32 126 c) eqn:E8.
  - unfold in_range in E8. apply andb_true_iff in E8. destruct E8 as [E8 _].
    apply N.leb_le in E8. now apply scanstring_plain.
  - destruct (c <? 65536)%N eqn:E9.
    + apply N.ltb_lt in E9.
      destruct (hex4_roundtrip c tail E9) as (h1 & h2 & h3 & h4 & Heq & Hv).
      change (([backslash; chr "u"] ++ hex 4 c) ++ tail)
        with (backslash :: chr "u" :: hex 4 c ++ tail).
      rewrite Heq, scanstring_u, Hv.
      assert (Hhi : is_high_surrogate c = false).
      { unfold is_high_surrogate, in_range. apply andb_false_iff.
        rewrite !N.leb_gt. lia. }
      now rewrite Hhi.
    + apply N.ltb_ge in E9.
      set (n := (c - 65536)%N).
      assert (Hn : (n < 1048576)%N) by (unfold n; lia).
      assert (Hq : (n / 1024 < 1024)%N)
        by (apply N.Div0.div_lt_upper_bound; lia).
      assert (Hr : (n mod 1024 < 1024)%N) by (apply N.mod_upper_bound; lia).
      assert (Hnq : n = (1024 * (n / 1024) + n mod 1024)%N)
        by (apply N.div_mod; lia).
      rewrite (N.mod_small (n / 1024) 1024) by assumption.
      remember (n / 1024)%N as q eqn:Eq. remember (n mod 1024)%N as r eqn:Er.
      clear Eq Er.
      set (hi := (55296 + q)%N). set (lo := (56320 + r)%N).
      assert (Hhi : (hi < 65536)%N) by (unfold hi; lia).
      assert (Hlo : (lo < 65536)%N) by (unfold lo; lia).
      destruct (hex4_roundtrip lo tail Hlo) as (g1 & g2 & g3 & g4 & Hg & Hgv).
      destruct (hex4_roundtrip hi (backslash :: chr "u" :: hex 4 lo ++ tail) Hhi)
        as (h1 & h2 & h3 & h4 & Hh & Hhv).
      replace (([backslash; chr "u"] ++ hex 4 hi ++ [backslash; chr "u"]
                ++ hex 4 lo) ++ tail)
        with (backslash :: chr "u" :: hex 4 hi
              ++ backslash :: chr "u" :: hex 4 lo ++ tail)
        by (rewrite <- !app_assoc; reflexivity).
      rewrite Hh, scanstring_u, Hhv.
      assert (His : is_high_surrogate hi = true).
      { unfold is_high_surrogate, in_range. apply andb_true_iff.
        rewrite !N.leb_le. unfold hi. lia. }
      rewrite His, Hg, Hgv. rewrite !N.eqb_refl. cbn [andb].
      assert (Hls : is_low_surrogate lo = true).
      { unfold is_low_surrogate, in_range. apply andb_true_iff.
        rewrite !N.leb_le. unfold lo. lia. }
      rewrite Hls. f_equal. unfold join_surrogates, hi, lo. lia.
Qed.

Lemma scanstring_encoded s rest :
  scalar_str s = true ->
  scanstring (flat_map escape_char s ++ dq :: rest) = Ok (s, rest).
Proof.
  induction s as [|c s IH]; simpl; intros H.
  - reflexivity.
  - apply andb_true_iff in H. destruct H as [Hc Hs].
    rewrite <- app_assoc, scan_escape_char, IH by assumption. reflexivity.
Qed.

Lemma span_digits_app ds rest :
  forallb is_digit ds = true ->
  match rest with [] => true | c :: _ => negb (is_digit c) end = true ->
  span_digits (ds ++ rest) = (ds, rest).
Proof.
  intros Hds Hrest. induction ds as [|d ds IH]; simpl.
  - destruct rest as [|c rest]; [reflexivity|]. simpl.
    apply negb_true_iff in Hrest. now rewrite Hrest.
  - simpl in Hds. apply andb_true_iff in Hds. destruct Hds as [Hd Hds].
    rewrite Hd, IH by assumption. reflexivity.
Qed.

Lemma delim_cases rest :
  delim rest = true ->
  rest = [] \/ exists c r, rest = c :: r /\ (c = 44 \/ c = 10)%N.
Proof.
  destruct rest as [|c r]; [now left|]. simpl. rewrite orb_true_iff, !N.eqb_eq.
  intros H. right. exists c, r. split; [reflexivity|].
  change (chr ",") with 44%N in H. exact H.
Qed.

Lemma int_str_shape z :
  exists c r,
    int_str z = c :: r
    /\ ((c = 45%N /\ z < 0 /\ exists d ds, r = d :: ds /\ d <> 48%N
          /\ forallb is_digit r = true /\ digits_value r = - z)
        \/ (z = 0 /\ c = 48%N /\ r = [])
        \/ (0 < z /\ c <> 48%N /\ forallb is_digit (c :: r) = true
            /\ digits_value (c :: r) = z)).
Proof.
  unfold int_str.
  set (n := Z.to_N (Z.abs z)).
  pose proof (decimal_fuel n) as Hfuel.
  pose proof (digits_of_all_digits (S (N.to_nat (N.log2 n))) n) as Hall.
  pose proof (digits_of_value _ _ Hfuel) as Hval.
  destruct (N.eq_dec n 0%N) as [Hn0|Hn0].
  - assert (z = 0) by lia. subst z. exists 48%N, []. split; [reflexivity|].
    right. left. auto.
  - destruct (digits_of_head _ _ Hn0 Hfuel) as (c & r & Heq & Hc).
    rewrite Heq in *.
    destruct (z <? 0) eqn:Ez.
    + apply Z.ltb_lt in Ez. exists 45%N, (c :: r). split; [reflexivity|].
      left. repeat split; try lia. exists c, r. repeat split; auto. lia.
    + apply Z.ltb_ge in Ez. exists c, r. split; [reflexivity|].
      right. right. repeat split; auto; lia.
Qed.

Lemma not_float_delim rest :
  delim rest = true ->
  match rest with
  | c1 :: c2 :: r2 =>
      (N.eqb c1 (chr ".") && is_digit c2)
      || ((N.eqb c1 (chr "e") || N.eqb c1 (chr "E"))
          && (is_digit c2
              || ((N.eqb c2 (chr "+") || N.eqb c2 (chr "-"))
                  && match r2 with
                     | c3 :: _ => is_digit c3
                     | [] => false
                     end)))
  | _ => false
  end = false.
Proof.
  intros H. destruct (delim_cases _ H) as [-> | (c & r & -> & Hc)];
    [reflexivity|].
  destruct r as [|c2 r2]; [reflexivity|].
  destruct Hc as [-> | ->]; reflexivity.
Qed.

Lemma delim_no_digit rest :
  delim rest = true ->
  match rest with [] => true | c :: _ => negb (is_digit c) end = true.
Proof.
  intros H. destruct (delim_cases _ H) as [-> | (c & r & -> & [-> | ->])];
    reflexivity.
Qed.

Lemma match_number_int z rest :
  delim rest = true ->
  match_number (int_str z ++ rest) = Some (Ok (PInt z, rest)).
Proof.
  intros Hd.
  pose proof (not_float_delim rest Hd) as Hnf.
  pose proof (delim_no_digit rest Hd) as Hnd.
  destruct (int_str_shape z) as (c & r & -> & Hshape).
  destruct Hshape as [(-> & Hz & d & ds & -> & Hd0 & Hall & Hval)
                     | [(-> & -> & ->) | (Hz & Hc & Hall & Hval)]].
  - unfold match_number. cbn [app]. change (N.eqb 45 (chr "-")) with true.
    cbv iota beta.
    assert (Hdd : is_digit d = true)
      by (simpl in Hall; now apply andb_true_iff in Hall).
    rewrite Hdd.
    assert (Hd48 : N.eqb d (chr "0") = false) by (now apply N.eqb_neq).
    rewrite Hd48.
    change (d :: ds ++ rest) with ((d :: ds) ++ rest).
    rewrite span_digits_app by assumption. rewrite Hnf, Hval.
    now rewrite Z.opp_involutive.
  - unfold match_number. cbn [app].
    change (N.eqb 48 (chr "-")) with false. cbv iota beta.
    change (is_digit 48%N) with true. change (N.eqb 48 (chr "0")) with true.
    cbv iota beta. rewrite Hnf. reflexivity.
  - assert (Hcd : is_digit c = true)
      by (simpl in Hall; now apply andb_true_iff in Hall).
    assert (Hm : N.eqb c (chr "-") = false).
    { apply is_digit_spec in Hcd. apply N.eqb_neq.
      change (chr "-") with 45%N. lia. }
    unfold match_number. cbn [app]. rewrite Hm. cbv iota beta.
    rewrite Hcd.
    assert (Hc48 : N.eqb c (chr "0") = false) by (now apply N.eqb_neq).
    rewrite Hc48.
    change (c :: r ++ rest) with ((c :: r) ++ rest).
    rewrite span_digits_app by assumption. rewrite Hnf, Hval. reflexivity.
Qed.

Lemma scan_once_numeric n c r :
  (c = 45 \/ 48 <= c <= 57)%N ->
  scan_once (S n) (c :: r)
  = match match_number (c :: r) with
    | Some x => x
    | None =>
        if starts_with (lit "NaN") (c :: r)
           || starts_with (lit "Infinity") (c :: r)
           || starts_with (lit "-Infinity") (c :: r)
        then Beyond
        else Raise JSONDecodeError
    end.
Proof.
  intros Hc. cbn [scan_once].
  destruct (N.eqb c dq) eqn:E1;
    [apply N.eqb_eq in E1; unfold dq in E1; lia|].
  destruct (N.eqb c (chr "{")) eqn:E2;
    [apply N.eqb_eq in E2; change (chr "{") with 123%N in E2; lia|].
  destruct (N.eqb c (chr "[")) eqn:E3;
    [apply N.eqb_eq in E3; change (chr "[") with 91%N in E3; lia|].
  destruct (starts_with (lit "null") (c :: r)) eqn:E4.
  { apply starts_with_spec in E4. destruct E4 as [post E4].
    injection E4 as E4 _. lia. }
  destruct (starts_with (lit "true") (c :: r)) eqn:E5.
  { apply starts_with_spec in E5. destruct E5 as [post E5].
    injection E5 as E5 _. lia. }
  destruct (starts_with (lit "false") (c :: r)) eqn:E6.
  { apply starts_with_spec in E6. destruct E6 as [post E6].
    injection E6 as E6 _. lia. }
  reflexivity.
Qed.

Lemma int_str_head z :
  exists c r, int_str z = c :: r /\ (c = 45 \/ 48 <= c <= 57)%N.
Proof.
  destruct (int_str_shape z) as (c & r & Heq & Hshape).
  exists c, r. split; [assumption|].
  destruct Hshape as [(-> & _) | [(_ & -> & _) | (_ & _ & Hall & _)]].
  - now left.
  - right. lia.
  - right. simpl in Hall. apply andb_true_iff in Hall.
    destruct Hall as [Hall _]. now apply is_digit_spec in Hall.
Qed.

Lemma scan_once_int n z rest :
  delim rest = true ->
  scan_once (S n) (int_str z ++ rest) = Ok (PInt z, rest).
Proof.
  intros Hd. pose proof (match_number_int z rest Hd) as Hm.
  destruct (int_str_head z) as (c & r & Heq & Hc).
  rewrite Heq in *. cbn [app] in *.
  rewrite scan_once_numeric by assumption.
  match goal with
  | |- match ?m with _ => _ end = _ =>
      replace m with (Some (Ok (PInt z, rest))) by (symmetry; exact Hm)
  end.
  reflexivity.
Qed.

Lemma skip_ws_stop c r : is_ws c = false -> skip_ws (c :: r) = c :: r.
Proof. intros H. simpl. now rewrite H. Qed.

Lemma skip_ws_spaces k t : skip_ws (repeat 32%N k ++ t) = skip_ws t.
Proof. induction k as [|k IH]; [reflexivity|]. simpl. exact IH. Qed.

Lemma skip_ws_indent k t : skip_ws (newline_indent k ++ t) = skip_ws t.
Proof.
  unfold newline_indent, nl. rewrite <- app_assoc. simpl.
  apply skip_ws_spaces.
Qed.

Lemma insert_item_pmap {A B} (f : A -> B) x l l' :
  insert_item x l = Ok l' ->
  insert_item (x.1, f x.2) (pmap f l) = Ok (pmap f l').
Proof.
  revert l'. induction l as [|y l IH]; intros l'; simpl.
  - now intros [= <-].
  - destruct (py_lt x.1 y.1) as [[|]| |]; simpl; try easy.
    + now intros [= <-].
    + destruct (insert_item x l) as [r| |]; simpl; try easy.
      intros [= <-]. now rewrite (IH r eq_refl).
Qed.

Lemma sorted_items_pmap {A B} (f : A -> B) l l' :
  sorted_items l = Ok l' ->
  sorted_items (pmap f l) = Ok (pmap f l').
Proof.
  revert l'. induction l as [|x l IH]; intros l'; simpl.
  - now intros [= <-].
  - destruct (sorted_items l) as [s| |]; simpl; try easy.
    intros H. rewrite (IH s eq_refl). simpl.
    now apply insert_item_pmap.
Qed.

Lemma insert_item_str {A} (x : pyval * A) l :
  (exists s, x.1 = PStr s) -> str_keyed l ->
  exists l', insert_item x l = Ok l' /\ Permutation l' (x :: l).
Proof.
  intros [s Hs] Hl. induction Hl as [|y l [t Ht] Hl IH]; simpl.
  - eauto.
  - rewrite Hs, Ht. simpl. destruct (str_ltb s t).
    + eauto.
    + destruct IH as [l' [-> Hp]]. simpl. eexists. split; [reflexivity|].
      rewrite Hp. apply perm_swap.
Qed.

Lemma sorted_items_str {A} (l : list (pyval * A)) :
  str_keyed l ->
  exists l', sorted_items l = Ok l' /\ Permutation l' l.
Proof.
  intros Hl. induction Hl as [|x l Hx Hl IH]; simpl.
  - eauto.
  - destruct IH as [s [-> Hp]]. simpl.
    destruct (insert_item_str x s Hx) as [l' [-> Hp']].
    + unfold str_keyed. now rewrite Hp.
    + exists l'. split; [reflexivity|]. now rewrite Hp', Hp.
Qed.

Lemma dict_set_absent s v d :
  dict_lookup (PStr s) d = None ->
  dict_set (PStr s) v d = d ++ [(PStr s, v)].
Proof.
  induction d as [|[k x] d IH]; simpl; [reflexivity|].
  destruct (py_eq k (PStr s)); [easy|]. intros H. now rewrite IH.
Qed.

Lemma dict_of_pairs_distinct (pairs : list (str * pyval)) acc :
  List.NoDup (map fst pairs) ->
  (forall s, In s (map fst pairs) -> ~ In (PStr s) (dict_keys acc)) ->
  fold_left (fun d kv => dict_set (PStr kv.1) kv.2 d) pairs acc
  = acc ++ map (fun kv => (PStr kv.1, kv.2)) pairs.
Proof.
  revert acc. induction pairs as [|[s v] pairs IH]; intros acc Hnd Hfresh;
    simpl.
  - now rewrite app_nil_r.
  - apply List.NoDup_cons_iff in Hnd. destruct Hnd as [Hs Hnd].
    rewrite dict_set_absent.
    2:{ apply dict_lookup_none. apply Hfresh. now left. }
    rewrite IH; [now rewrite <- app_assoc|assumption|].
    intros t Ht. unfold dict_keys. rewrite map_app, in_app_iff. simpl.
    intros [Hin | [Heq | []]].
    + apply (Hfresh t); [now right | assumption].
    + injection Heq as ->. contradiction.
Qed.

Lemma iterencode_list l level :
  iterencode (PList l) level
  = match l with
    | [] => emit_text (lit "[]")
    | _ :: _ =>
        emit_then
          (emit_elems (S level) true (map (fun v => iterencode v (S level)) l))
          (emit_text (newline_indent level ++ lit "]"))
    end.
Proof. reflexivity. Qed.

Lemma iterencode_dict d level :
  iterencode (PDict d) level
  = match d with
    | [] => emit_text (lit "{}")
    | _ :: _ =>
        emit_then (emit_text (lit "{" ++ newline_indent (S level)))
          (match sorted_items (pmap (fun v => iterencode v (S level)) d) with
           | Ok sorted =>
               emit_then (emit_items (S level) true sorted)
                 (emit_text (newline_indent level ++ lit "}"))
           | Raise e => ([], Raise e)
           | Beyond => ([], Beyond)
           end)
    end.
Proof.
  destruct d as [|kv d]; [reflexivity|].
  cbn [iterencode]. unfold pmap.
  replace (map (fun kv0 : pyval * pyval =>
                  let '(k, v) := kv0 in (k, iterencode v (S level))) (kv :: d))
    with (map (fun kv0 : pyval * pyval => (kv0.1, iterencode kv0.2 (S level)))
              (kv :: d)); [reflexivity|].
  apply map_ext. now intros [k v].
Qed.

Lemma emit_elems_cons level first x l :
  (iterencode x level).2 = Ok tt ->
  emit_elems level first (map (fun v => iterencode v level) (x :: l))
  = (((if first then lit "[" else lit ",") ++ newline_indent level)
     ++ (iterencode x level).1 ++ elems_text level l,
     (emit_elems level false (map (fun v => iterencode v level) l)).2).
Proof.
  intros Hx. cbn [map emit_elems]. unfold elems_text, emit_text.
  destruct (iterencode x level) as [t r]. simpl in Hx. subst r.
  destruct (emit_elems level false _) as [t' r']. simpl.
  now rewrite <- !app_assoc.
Qed.

Lemma emit_elems_ok level first l :
  Forall (fun v => round_trips v level) l ->
  (emit_elems level first (map (fun v => iterencode v level) l)).2 = Ok tt.
Proof.
  intros Hl. revert first. induction Hl as [|x l [Hx _] _ IH]; intros first.
  - reflexivity.
  - rewrite emit_elems_cons by assumption. apply IH.
Qed.

Lemma elems_text_cons level x l :
  (iterencode x level).2 = Ok tt ->
  elems_text level (x :: l)
  = lit "," ++ newline_indent level ++ (iterencode x level).1
    ++ elems_text level l.
Proof.
  intros Hx. unfold elems_text at 1. rewrite emit_elems_cons by assumption.
  cbn [fst]. now rewrite <- app_assoc.
Qed.

Lemma good_head_app t u : good_head t = true -> good_head (t ++ u) = good_head t.
Proof. destruct t; [discriminate | reflexivity]. Qed.

Lemma good_head_skip_ws t u :
  good_head t = true -> skip_ws (t ++ u) = t ++ u.
Proof.
  destruct t as [|c t]; [discriminate|]. simpl.
  rewrite !andb_true_iff, !negb_true_iff. intros [[H _] _]. now rewrite H.
Qed.

Lemma good_head_length t : good_head t = true -> (1 <= length t)%nat.
Proof. destruct t; [discriminate | simpl; lia]. Qed.

Lemma array_items_ok level l :
  Forall (fun v => round_trips v level) l ->
  forall x fuel k rest,
    round_trips x level ->
    (length ((iterencode x level).1 ++ elems_text level l) < fuel)%nat ->
    array_items fuel ((iterencode x level).1 ++ elems_text level l
                      ++ newline_indent k ++ lit "]" ++ rest)
    = Ok (canon x :: map canon l, rest).
Proof.
  intros Hl. induction Hl as [|y l Hy Hl IH]; intros x fuel k rest Hx Hfuel.
  - destruct fuel as [|m]; [simpl in Hfuel; lia|].
    destruct Hx as (_ & _ & Hscan). cbn [array_items].
    change (elems_text level []) with (@nil codepoint) in *.
    rewrite app_nil_r in Hfuel. cbn [app].
    rewrite Hscan by (simpl; auto; lia). cbn [rbind].
    rewrite skip_ws_indent. reflexivity.
  - destruct fuel as [|m]; [simpl in Hfuel; lia|].
    pose proof Hy as (Hy2 & Hyh & _). pose proof Hx as (_ & _ & Hscan).
    rewrite elems_text_cons in * by assumption.
    rewrite length_app in Hfuel. simpl in Hfuel. rewrite !length_app in Hfuel.
    cbn [array_items]. rewrite <- !app_assoc.
    change (lit ",") with [44%N] in *. cbn [app length] in *.
    rewrite Hscan; [|lia|reflexivity]. cbn [rbind].
    rewrite (skip_ws_stop 44%N) by reflexivity.
    change (N.eqb 44 (chr "]")) with false.
    change (N.eqb 44 (chr ",")) with true. cbv iota.
    rewrite skip_ws_indent, good_head_skip_ws by assumption.
    rewrite (IH y m k rest Hy).
    + reflexivity.
    + rewrite length_app. lia.
Qed.

Lemma emit_items_cons level first s v sp :
  (iterencode v level).2 = Ok tt ->
  emit_items level first
    (pmap (fun v => iterencode v level) (str_items ((s, v) :: sp)))
  = (((if first then [] else lit "," ++ newline_indent level)
      ++ encode_basestring_ascii s ++ lit ": ")
     ++ (iterencode v level).1 ++ items_text level sp,
     (emit_items level false
        (pmap (fun v => iterencode v level) (str_items sp))).2).
Proof.
  intros Hv. unfold items_text, str_items, pmap. cbn [map emit_items fst snd].
  unfold emit_item, key_str, emit_text.
  destruct (iterencode v level) as [t r]. simpl in Hv. subst r.
  destruct (emit_items level false _) as [t' r']. cbn [emit_then fst snd].
  now rewrite <- !app_assoc.
Qed.

Lemma emit_items_ok level first sp :
  Forall (fun kv => round_trips kv.2 level) sp ->
  (emit_items level first
     (pmap (fun v => iterencode v level) (str_items sp))).2 = Ok tt.
Proof.
  intros Hl. revert first.
  induction Hl as [|[s v] sp [Hv _] _ IH]; intros first.
  - reflexivity.
  - rewrite emit_items_cons by assumption. apply IH.
Qed.

Lemma items_text_cons level s v sp :
  (iterencode v level).2 = Ok tt ->
  items_text level ((s, v) :: sp)
  = lit "," ++ newline_indent level ++ dq :: flat_map escape_char s
    ++ dq :: lit ": " ++ (iterencode v level).1 ++ items_text level sp.
Proof.
  intros Hv. unfold items_text at 1. rewrite emit_items_cons by assumption.
  cbn [fst]. unfold encode_basestring_ascii. rewrite <- !app_assoc.
  reflexivity.
Qed.

Lemma object_items_ok level sp :
  Forall (fun kv => scalar_str kv.1 = true /\ round_trips kv.2 level) sp ->
  forall s v fuel k rest,
    scalar_str s = true ->
    round_trips v level ->
    (length ((iterencode v level).1 ++ items_text level sp) < fuel)%nat ->
    object_items fuel (flat_map escape_char s ++ dq :: lit ": "
                       ++ (iterencode v level).1 ++ items_text level sp
                       ++ newline_indent k ++ lit "}" ++ rest)
    = Ok ((s, canon v) :: map (fun kv => (kv.1, canon kv.2)) sp, rest).
Proof.
  intros Hl.
  induction Hl as [|[s2 v2] sp [Hs2 Hv2] Hl IH];
    intros s v fuel k rest Hs Hv Hfuel.
  - destruct fuel as [|m]; [simpl in Hfuel; lia|].
    destruct Hv as (_ & Hvh & Hscan). cbn [object_items].
    change (items_text level []) with (@nil codepoint) in *.
    rewrite app_nil_r in Hfuel. cbn [app].
    rewrite scanstring_encoded by assumption. cbn [rbind].
    change (lit ": ") with [58%N; 32%N]. cbn [app].
    rewrite (skip_ws_stop 58%N) by reflexivity.
    change (N.eqb 58 (chr ":")) with true. cbv iota.
    change (skip_ws (32%N :: ?x)) with (skip_ws x).
    rewrite good_head_skip_ws by assumption.
    rewrite Hscan; [|lia|reflexivity]. cbn [rbind].
    rewrite skip_ws_indent. reflexivity.
  - destruct fuel as [|m]; [simpl in Hfuel; lia|].
    pose proof Hv2 as (Hv22 & Hv2h & _).
    pose proof Hv as (_ & Hvh & Hscan).
    rewrite items_text_cons in * by assumption.
    cbn [object_items].
    rewrite scanstring_encoded by assumption. cbn [rbind].
    change (lit ": ") with [58%N; 32%N] in *.
    change (lit ",") with [44%N] in *. rewrite <- !app_assoc.
    cbn [app] in *.
    rewrite (skip_ws_stop 58%N) by reflexivity.
    change (N.eqb 58 (chr ":")) with true. cbv iota.
    change (skip_ws (32%N :: ?x)) with (skip_ws x).
    rewrite good_head_skip_ws by assumption.
    rewrite length_app in Hfuel. cbn [length] in Hfuel.
    rewrite !length_app in Hfuel. cbn [length] in Hfuel.
    rewrite !length_app in Hfuel. cbn [length] in Hfuel.
    rewrite Hscan; [|lia|reflexivity]. cbn [rbind].
    rewrite (skip_ws_stop 44%N) by reflexivity.
    change (N.eqb 44 (chr "}")) with false.
    change (N.eqb 44 (chr ",")) with true. cbv iota.
    rewrite skip_ws_indent. rewrite (skip_ws_stop dq) by reflexivity.
    rewrite N.eqb_refl.
    pose proof (IH s2 v2 m k rest Hs2 Hv2) as IH'.
    change (lit ": ") with [58%N; 32%N] in IH'. cbn [app] in IH'.
    repeat (rewrite <- app_assoc; cbn [app]).
    rewrite IH'.
    + reflexivity.
    + rewrite !length_app in *. lia.
Qed.

Lemma scan_once_array n k t :
  good_head t = true ->
  scan_once (S n) (91%N :: newline_indent k ++ t)
  = let? (l, rest) := array_items n t in Ok (PList l, rest).
Proof.
  intros Ht. cbn [scan_once].
  change (N.eqb 91 dq) with false. change (N.eqb 91 (chr "{")) with false.
  change (N.eqb 91 (chr "[")) with true. cbv iota.
  rewrite skip_ws_indent.
  rewrite <- (app_nil_r t) at 1. rewrite good_head_skip_ws, app_nil_r
    by assumption.
  destruct t as [|c t]; [discriminate|]. cbn [good_head] in Ht.
  rewrite !andb_true_iff, !negb_true_iff in Ht. destruct Ht as [[_ Hb] _].
  now rewrite Hb.
Qed.

Lemma scan_once_object n k body :
  scan_once (S n) (123%N :: newline_indent k ++ dq :: body)
  = let? (pairs, rest) := object_items n body in
    Ok (PDict (dict_of_pairs pairs), rest).
Proof.
  cbn [scan_once].
  change (N.eqb 123 dq) with false. change (N.eqb 123 (chr "{")) with true.
  cbv iota. rewrite skip_ws_indent, (skip_ws_stop dq) by reflexivity.
  change (N.eqb dq (chr "}")) with false. now rewrite N.eqb_refl.
Qed.

Lemma str_keyed_items {A} (l : list (pyval * A)) :
  str_keyed l -> exists sp, l = str_items sp.
Proof.
  intros Hl. induction Hl as [|[k v] l [s Hs] _ [sp ->]].
  - now exists [].
  - simpl in Hs. subst k. now exists ((s, v) :: sp).
Qed.

Lemma distinct_NoDup ks :
  Forall (fun k => exists s, k = PStr s) ks ->
  distinct ks = true -> List.NoDup ks.
Proof.
  intros Hks. induction Hks as [|k ks [s ->] Hks IH]; cbn [distinct].
  - constructor.
  - rewrite andb_true_iff, negb_true_iff. intros [Hno Hd].
    constructor; [|auto].
    intros Hin. assert (existsb (py_eq (PStr s)) ks = true); [|congruence].
    apply existsb_exists. exists (PStr s). split; [assumption|].
    simpl. apply str_eqb_refl.
Qed.

Lemma native_dict_parts d :
  json_native (PDict d) = true ->
  Forall (fun kv => (exists s, kv.1 = PStr s /\ scalar_str s = true)
                    /\ json_native kv.2 = true) d
  /\ List.NoDup (map fst d).
Proof.
  cbn [json_native]. rewrite andb_true_iff, forallb_forall. intros [Hall Hd].
  assert (HF : Forall (fun kv => (exists s, kv.1 = PStr s /\ scalar_str s = true)
                                 /\ json_native kv.2 = true) d).
  { apply List.Forall_forall. intros [k v] Hin. specialize (Hall _ Hin).
    simpl in *. apply andb_true_iff in Hall. destruct Hall as [Hk Hv].
    destruct k; try discriminate. eauto. }
  split; [assumption|].
  apply distinct_NoDup; [|assumption].
  apply List.Forall_forall. intros k Hk. apply in_map_iff in Hk.
  destruct Hk as [[k' v] [<- Hin]].
  rewrite List.Forall_forall in HF. destruct (HF _ Hin) as [[s [Hs _]] _].
  eauto.
Qed.

Lemma length_newline_indent k :
  length (newline_indent k) = S (4 * k).
Proof.
  unfold newline_indent, nl. rewrite length_app, repeat_length. reflexivity.
Qed.

Lemma round_trips_list l level :
  Forall (fun v => round_trips v (S level)) l ->
  round_trips (PList l) level.
Proof.
  intros Hl. destruct Hl as [|x l Hx Hl].
  - repeat split. intros fuel rest Hfuel _.
    destruct fuel as [|n]; [simpl in Hfuel; lia | reflexivity].
  - pose proof Hx as (Hx2 & Hxh & _).
    assert (Henc : iterencode (PList (x :: l)) level
                   = (91%N :: newline_indent (S level)
                      ++ (iterencode x (S level)).1 ++ elems_text (S level) l
                      ++ newline_indent level ++ lit "]", Ok tt)).
    { rewrite iterencode_list, emit_elems_cons by assumption.
      rewrite (emit_elems_ok (S level) false l Hl).
      unfold emit_then, emit_text. cbn [fst snd].
      rewrite <- !app_assoc. reflexivity. }
    unfold round_trips. rewrite Henc. cbn [fst snd]. repeat split.
    intros fuel rest Hfuel Hrest.
    destruct fuel as [|n]; [simpl in Hfuel; lia|].
    cbn [length] in Hfuel. rewrite !length_app in Hfuel.
    rewrite !length_newline_indent in Hfuel.
    cbn [app]. rewrite <- !app_assoc.
    rewrite scan_once_array by (now rewrite good_head_app).
    rewrite (array_items_ok (S level) l Hl x n level rest Hx)
      by (rewrite length_app; lia).
    reflexivity.
Qed.

Lemma round_trips_dict d level :
  Forall (fun kv => (exists s, kv.1 = PStr s /\ scalar_str s = true)
                    /\ round_trips kv.2 (S level)) d ->
  List.NoDup (map fst d) ->
  round_trips (PDict d) level.
Proof.
  intros Hd Hnd. destruct d as [|kv0 d0].
  { repeat split. intros fuel rest Hfuel _.
    destruct fuel as [|n]; [simpl in Hfuel; lia | reflexivity]. }
  set (d := kv0 :: d0) in *.
  assert (Hkeyed : str_keyed d).
  { unfold str_keyed. eapply Forall_impl; [exact Hd|].
    intros kv [[s [Hs _]] _]. eauto. }
  destruct (sorted_items_str d Hkeyed) as [sd [Hsorted Hperm]].
  assert (Hkeyed' : str_keyed sd) by (unfold str_keyed; now rewrite Hperm).
  destruct (str_keyed_items sd Hkeyed') as [sp ->].
  assert (Hsp : Forall (fun kv => scalar_str kv.1 = true
                                  /\ round_trips kv.2 (S level)) sp).
  { rewrite <- Hperm in Hd. clear -Hd. induction sp as [|[s v] sp IH].
    - constructor.
    - apply Forall_cons in Hd. destruct Hd as [[[s' [Hs Hsc]] Hv] Hd].
      simpl in Hs. injection Hs as ->. constructor; auto. }
  assert (Hndsp : List.NoDup (map fst sp)).
  { apply (Permutation_map fst) in Hperm.
    apply (Permutation_NoDup (Permutation_sym Hperm)) in Hnd.
    unfold str_items in Hnd. rewrite map_map in Hnd. simpl in Hnd.
    rewrite <- (map_map fst PStr) in Hnd.
    now apply List.NoDup_map_inv in Hnd. }
  assert (Hcanon : canon (PDict d)
                   = PDict (str_items (map (fun kv => (kv.1, canon kv.2)) sp))).
  { cbn [canon]. fold (pmap canon d).
    rewrite (sorted_items_pmap canon d _ Hsorted).
    unfold pmap, str_items. now rewrite !map_map. }
  destruct sp as [|[s v] sp].
  { apply Permutation_length in Hperm. discriminate. }
  apply Forall_cons in Hsp. destruct Hsp as [[Hs Hv] Hsp].
  pose proof Hv as (Hv2 & Hvh & _).
  assert (Henc : iterencode (PDict d) level
                 = (123%N :: newline_indent (S level)
                    ++ dq :: flat_map escape_char s ++ dq :: lit ": "
                    ++ (iterencode v (S level)).1 ++ items_text (S level) sp
                    ++ newline_indent level ++ lit "}", Ok tt)).
  { unfold d. rewrite iterencode_dict. fold d.
    rewrite (sorted_items_pmap _ d _ Hsorted).
    rewrite emit_items_cons by assumption.
    rewrite (emit_items_ok (S level) false sp)
      by (eapply Forall_impl; [exact Hsp | now intros kv [_ H]]).
    unfold emit_then, emit_text, encode_basestring_ascii. cbn [fst snd].
    rewrite <- !app_assoc. reflexivity. }
  unfold round_trips. rewrite Henc, Hcanon. cbn [fst snd]. repeat split.
  intros fuel rest Hfuel Hrest.
  destruct fuel as [|n]; [simpl in Hfuel; lia|].
  cbn [length] in Hfuel. rewrite !length_app in Hfuel.
  cbn [length] in Hfuel. rewrite !length_app in Hfuel.
  cbn [length] in Hfuel. rewrite !length_app in Hfuel.
  rewrite !length_newline_indent in Hfuel.
  repeat first [rewrite <- app_assoc | progress cbn [app]].
  rewrite scan_once_object.
  rewrite (object_items_ok (S level) sp Hsp s v n level rest Hs Hv)
    by (rewrite length_app; lia).
  cbn [rbind]. do 2 f_equal.
  unfold dict_of_pairs.
  rewrite (dict_of_pairs_distinct
             ((s, canon v) :: map (fun kv => (kv.1, canon kv.2)) sp) []).
  - reflexivity.
  - cbn [map fst]. rewrite map_map. exact Hndsp.
  - intros t _ [].
Qed.

Lemma round_trips_native v :
  json_native v = true -> forall level, round_trips v level.
Proof.
  induction v as [| b | i | s | l IH | l IH | d IH] using pyval_nested_ind;
    intros Hn level.
  - repeat split. intros fuel rest Hfuel _.
    destruct fuel as [|n]; [simpl in Hfuel; lia | reflexivity].
  - destruct b; repeat split; intros fuel rest Hfuel _;
      (destruct fuel as [|n]; [simpl in Hfuel; lia | reflexivity]).
  - destruct (int_str_head i) as (c & r & Heq & Hc).
    unfold round_trips. cbn [iterencode emit_text fst snd].
    split; [reflexivity|]. split.
    + rewrite Heq. cbn [good_head].
      destruct Hc as [-> | Hc]; [reflexivity|].
      rewrite !andb_true_iff, !negb_true_iff. unfold is_ws.
      rewrite !orb_false_iff, !N.eqb_neq. change (chr "]") with 93%N. lia.
    + intros fuel rest Hfuel Hrest.
      destruct fuel as [|n]; [rewrite Heq in Hfuel; simpl in Hfuel; lia|].
      now apply scan_once_int.
  - cbn [json_native] in Hn.
    unfold round_trips. cbn [iterencode emit_text fst snd].
    repeat split.
    intros fuel rest Hfuel _.
    destruct fuel as [|n]; [simpl in Hfuel; lia|].
    unfold encode_basestring_ascii. cbn [app scan_once].
    rewrite N.eqb_refl. rewrite <- app_assoc. cbn [app].
    now rewrite scanstring_encoded.
  - apply round_trips_list.
    cbn [json_native] in Hn. rewrite forallb_forall in Hn.
    rewrite List.Forall_forall in *. intros x Hx. apply IH; auto.
  - discriminate.
  - destruct (native_dict_parts d Hn) as [Hparts Hnd].
    apply round_trips_dict; [|assumption].
    rewrite List.Forall_forall in *. intros kv Hkv.
    destruct (Hparts kv Hkv) as [Hk Hv]. split; [assumption|].
    apply (IH kv Hkv); assumption.
Qed.

Lemma py_eq_list xs ys : py_eq (PList xs) (PList ys) = seq_eqb xs ys.
Proof.
  reflexivity.
Qed.

Lemma py_eq_dict xs ys :
  py_eq (PDict xs) (PDict ys)
  = (length xs =? length ys)%nat && dict_all_in xs ys.
Proof.
  cbn [py_eq]. f_equal.
  induction xs as [|[k v] xs IH]; [reflexivity|].
  cbn [dict_all_in]. rewrite <- IH. f_equal. clear IH.
  induction ys as [|[k' v'] ys IHy]; [reflexivity|].
  cbn [dict_find_eq]. rewrite <- IHy. reflexivity.
Qed.

Lemma dict_find_eq_in d s x cv :
  List.NoDup (map fst d) ->
  In (PStr s, x) d ->
  py_eq cv x = true ->
  dict_find_eq (PStr s) cv d = true.
Proof.
  intros Hnd Hin Hcv. induction d as [|[k' v'] d IH]; [contradiction|].
  cbn [map fst] in Hnd. apply List.NoDup_cons_iff in Hnd.
  destruct Hnd as [Hk Hnd]. cbn [dict_find_eq].
  destruct (py_eq (PStr s) k') eqn:E.
  - apply py_eq_str_l in E. subst k'.
    destruct Hin as [Heq | Hin]; [now injection Heq as <-|].
    exfalso. apply Hk. apply in_map_iff. now exists (PStr s, x).
  - destruct Hin as [Heq | Hin]; [|auto].
    injection Heq as -> ->. simpl in E. now rewrite str_eqb_refl in E.
Qed.

Lemma py_eq_canon v : json_native v = true -> py_eq (canon v) v = true.
Proof.
  induction v as [| b | i | s | l IH | l IH | d IH] using pyval_nested_ind;
    intros Hn.
  - reflexivity.
  - destruct b; reflexivity.
  - simpl. apply Z.eqb_refl.
  - simpl. apply str_eqb_refl.
  - cbn [canon]. rewrite py_eq_list. cbn [json_native] in Hn.
    induction IH as [|x l Hx _ IHl]; [reflexivity|].
    cbn [forallb] in Hn. apply andb_true_iff in Hn. destruct Hn as [Hnx Hnl].
    cbn [map seq_eqb]. now rewrite Hx, IHl.
  - discriminate.
  - destruct (native_dict_parts d Hn) as [Hparts Hnd].
    assert (Hkeyed : str_keyed d).
    { unfold str_keyed. eapply Forall_impl; [exact Hparts|].
      intros kv [[s [Hs _]] _]. eauto. }
    destruct (sorted_items_str d Hkeyed) as [sd [Hsorted Hperm]].
    cbn [canon]. fold (pmap canon d).
    rewrite (sorted_items_pmap canon d _ Hsorted), py_eq_dict.
    apply andb_true_iff. split.
    + unfold pmap. rewrite length_map.
      apply Permutation_length in Hperm. rewrite Hperm. apply Nat.eqb_refl.
    + assert (Hall : forall kv, In kv sd ->
                       dict_find_eq kv.1 (canon kv.2) d = true).
      { intros [k x] Hin.
        assert (Hind : In (k, x) d)
          by (eapply Permutation_in; [exact Hperm | exact Hin]).
        rewrite List.Forall_forall in Hparts, IH.
        destruct (Hparts _ Hind) as [[s [Hs _]] Hx]. simpl in Hs. subst k.
        apply (dict_find_eq_in d s x); [assumption..|].
        now apply (IH _ Hind). }
      clear -Hall. induction sd as [|[k x] sd IHs]; [reflexivity|].
      cbn [pmap map dict_all_in]. rewrite (Hall (k, x)) by now left.
      apply IHs. intros kv Hkv. apply Hall. now right.
Qed.

Lemma json_loads_dumps v :
  json_native v = true ->
  exists t, iterencode v 0 = (t, Ok tt) /\ json_loads t = Ok (canon v).
Proof.
  intros Hn. destruct (round_trips_native v Hn 0%nat) as (H2 & Hh & Hscan).
  destruct (iterencode v 0) as [t r] eqn:E. cbn [fst snd] in *. subst r.
  exists t. split; [reflexivity|].
  unfold json_loads.
  assert (Hbom : starts_with [65279%N] t = false).
  { destruct t as [|c t]; [discriminate|]. cbn [good_head] in Hh.
    rewrite !andb_true_iff, !negb_true_iff in Hh. destruct Hh as [_ Hb].
    cbn [starts_with]. now rewrite N.eqb_sym, Hb. }
  rewrite Hbom.
  rewrite <- (app_nil_r t) at 2. rewrite good_head_skip_ws by assumption.
  rewrite Hscan by (auto; lia). reflexivity.
Qed.




(** ** The command runner: the other outcomes *)

(** What [run_cmd] does after the optional echo. *)
Lemma run_cmd_run E cmd verbose w :
  run_cmd E cmd false verbose w
  = let w0 := World (stdout w ++ (if verbose then echo cmd else []))
                    (logged w) (spawned w) (files w) in
    match exec E cmd with
    | SpawnFailed (CalledProcessError _ _ output) =>
        (match utf8_decode output with
         | Some text =>
             Raise (Exception (lit "Nonzero return status running command "
                               ++ str_of_list E cmd ++ lit ":" ++ nl ++ text))
         | None => Raise UnicodeDecodeError
         end, w0)
    | SpawnFailed SubprocessError => (Raise AttributeError, w0)
    | SpawnFailed e => (Raise e, w0)
    | Exited status output =>
        (match utf8_decode output with
         | Some text =>
             if status =? 0 then Ok (Some text)
             else Raise (Exception
                           (lit "Nonzero return status running command "
                            ++ str_of_list E cmd ++ lit ":" ++ nl ++ text))
         | None => Raise UnicodeDecodeError
         end, after w0 [] [cmd])
    end.
Proof.
  unfold run_cmd, after, echo. destruct w as [so lg sp fs].
  destruct verbose; simpl;
    unfold bind, try_except, print, check_output, lift, raise, decode, ret; simpl;
    (destruct (exec E cmd) as [e|status output];
     [ destruct e; simpl; rewrite ?app_nil_r; try reflexivity;
       match goal with |- context [utf8_decode ?o] =>
         destruct (utf8_decode o); reflexivity end
     | destruct (status =? 0); simpl;
       destruct (utf8_decode output); simpl; rewrite ?app_nil_r; reflexivity ]).
Qed.

(** X1: a command that exits with status 0 and prints valid UTF-8 makes
    [run_cmd] return the decoded text of its merged output; the process
    is run once, and the command line is printed only when [verbose] is
    set.  Output that is not UTF-8 raises the decoding error instead. *)
Theorem run_cmd_success (E : env) (cmd : list str) (verbose : bool)
    (w : world) (output : bytes) :
  exec E cmd = Exited 0 output ->
  run_cmd E cmd false verbose w
  = (match utf8_decode output with
     | Some text => Ok (Some text)
     | None => Raise UnicodeDecodeError
     end,
     after w (if verbose then echo cmd else []) [cmd]).
Proof.
  intros Hexec. rewrite run_cmd_run, Hexec. unfold after. simpl.
  rewrite app_nil_r. destruct (utf8_decode output); reflexivity.
Qed.

Lemma run_cmd_success_witness :
  run_cmd sample_env [lit "ffprobe"] false true empty_world
  = (match utf8_decode sample_output with
     | Some text => Ok (Some text)
     | None => Raise UnicodeDecodeError
     end,
     after empty_world (echo [lit "ffprobe"]) [[lit "ffprobe"]]).
Proof.
  apply (run_cmd_success sample_env [lit "ffprobe"] true empty_world
           sample_output).
  reflexivity.
Defined.

(** X2: when the program cannot be started, the operating-system error
    reaches the caller as it is: it is no [SubprocessError], so neither
    handler of [run_cmd] wraps it in an [Exception] with the command.  No
    process is recorded as run. *)
Theorem run_cmd_spawn_failure (E : env) (cmd : list str) (verbose : bool)
    (w : world) (msg : str) :
  exec E cmd = SpawnFailed (OSError msg) ->
  run_cmd E cmd false verbose w
  = (Raise (OSError msg), after w (if verbose then echo cmd else []) []).
Proof.
  intros Hexec. rewrite run_cmd_run, Hexec. unfold after. simpl.
  now rewrite app_nil_r.
Qed.

Lemma run_cmd_spawn_failure_witness :
  run_cmd bare_env [lit "ffprobe"] false false empty_world
  = (Raise (OSError (lit "No such file")), after empty_world [] []).
Proof.
  apply (run_cmd_spawn_failure bare_env [lit "ffprobe"] false empty_world
           (lit "No such file")).
  reflexivity.
Defined.

(** X3: [verbose] changes nothing but standard output: the outcome, the
    log, the processes run and the files are those of the quiet call, and
    standard output has the shell-quoted command line in addition. *)
Theorem run_cmd_verbose_only_prints (E : env) (cmd : list str) (w : world) :
  let quiet := run_cmd E cmd false false w in
  run_cmd E cmd false true w
  = (quiet.1,
     World (stdout quiet.2 ++ echo cmd) (logged quiet.2) (spawned quiet.2)
           (files quiet.2))
  /\ stdout quiet.2 = stdout w.
Proof.
  simpl. rewrite !run_cmd_run. unfold after. simpl.
  destruct (exec E cmd) as [e|status output]; [destruct e|]; simpl;
    rewrite ?app_nil_r; split; reflexivity.
Qed.

(** ** The assertion helpers *)

(** X4: [assert_file] returns, with nothing changed, exactly when the
    path is an existing file; otherwise it logs the message as an error
    and raises [SystemExit] with code 0. *)
Theorem assert_file_outcome (filename fail_message : str) (w : world) :
  (is_Some (files w !! filename) ->
   assert_file filename fail_message w = (Ok tt, w))
  /\ (files w !! filename = None ->
      assert_file filename fail_message w
      = (Raise (SystemExit 0),
         World (stdout w) (logged w ++ [(ERROR, fail_message)]) (spawned w)
               (files w)))
  /\ ((assert_file filename fail_message w).1 = Ok tt
      <-> is_Some (files w !! filename)).
Proof.
  unfold assert_file, bind, isfile, assert_msg.
  destruct (files w !! filename) as [c|] eqn:Hf.
  - rewrite bool_decide_eq_true_2 by eauto. simpl. unfold ret.
    repeat split; eauto; easy.
  - rewrite bool_decide_eq_false_2 by (intros [x Hx]; discriminate). simpl.
    repeat split; try easy.
    + intros [x Hx]. discriminate.
    + intros [x Hx]. discriminate.
Qed.

Lemma assert_file_outcome_witness :
  assert_file (lit "a.mp4") (lit "no input") sample_world = (Ok tt, sample_world)
  /\ assert_file (lit "b.mp4") (lit "no input") sample_world
     = (Raise (SystemExit 0),
        World [] [(ERROR, lit "no input")] [] (files sample_world)).
Proof.
  split.
  - apply (assert_file_outcome (lit "a.mp4") (lit "no input") sample_world).
    exists []. reflexivity.
  - apply (assert_file_outcome (lit "b.mp4") (lit "no input") sample_world).
    reflexivity.
Defined.

(** ** The file opener: binary modes *)

(** X5: a mode with a [b] cannot be used on a name that selects a
    compressed opener: [file_open] appends [t] to it, and [bz2.open] and
    [gzip.open] refuse a mode that is text and binary at once with a
    [ValueError].  On any other name the mode is passed on as it is. *)
Theorem file_open_binary_mode (filename mode : str) :
  has_substring (lit "b") mode ->
  (has_substring (lit "bz2") filename \/ has_substring (lit "gz") filename ->
   oc_opener (file_open filename mode) <> builtin_open
   /\ exists msg,
        compressed_handle (oc_mode (file_open filename mode))
        = Raise (ValueError msg))
  /\ (~ has_substring (lit "bz2") filename ->
      ~ has_substring (lit "gz") filename ->
      file_open filename mode = OpenCall builtin_open filename mode).
Proof.
  unfold has_substring. intros Hb. apply contains_spec in Hb.
  assert (Ht : contains (lit "t") (mode ++ lit "t") = true)
    by apply contains_app_r, contains_self.
  assert (Hb' : contains (lit "b") (mode ++ lit "t") = true)
    by now apply contains_app_l.
  unfold file_open. split.
  - intros H.
    destruct (contains (lit "bz2") filename) eqn:E1.
    + simpl. split; [discriminate|]. unfold compressed_handle.
      rewrite Ht, Hb'. eauto.
    + destruct (contains (lit "gz") filename) eqn:E2.
      * simpl. split; [discriminate|]. unfold compressed_handle.
        rewrite Ht, Hb'. eauto.
      * apply contains_false in E1, E2. tauto.
  - intros H1 H2. apply contains_false in H1, H2. now rewrite H1, H2.
Qed.

Lemma file_open_binary_mode_witness :
  oc_opener (file_open (lit "frames.gz") (lit "rb")) <> builtin_open
  /\ exists msg,
       compressed_handle (oc_mode (file_open (lit "frames.gz") (lit "rb")))
       = Raise (ValueError msg).
Proof.
  apply (file_open_binary_mode (lit "frames.gz") (lit "rb")).
  - exists (lit "r"), []. reflexivity.
  - right. exists (lit "frames."), []. reflexivity.
Defined.

(** ** The media prober: what the tool's run leads to *)

Lemma lstrip_spaces s : forallb is_space s = true -> lstrip s = [].
Proof.
  induction s as [|c s IH]; simpl; [reflexivity|].
  intros H. apply andb_true_iff in H as [Hc Hs]. rewrite Hc. auto.
Qed.

Lemma strip_spaces s : forallb is_space s = true -> strip s = [].
Proof. intros H. unfold strip. rewrite (lstrip_spaces s H). reflexivity. Qed.

(** [ffprobe] once the tool and the file are there. *)
Lemma ffprobe_checked E filename w p c :
  which E (lit "ffprobe") = Some p ->
  files w !! filename = Some c ->
  ffprobe E filename w
  = match run_cmd E (ffprobe_cmd filename) false false w with
    | (Ok (Some out), w') =>
        (if (length (strip out) =? 0)%nat then Raise (probe_empty filename)
         else let? res := json_loads (strip out) in ffprobe_needed res, w')
    | (Ok None, w') => (Raise AttributeError, w')
    | (Raise e, w') => (Raise e, w')
    | (Beyond, w') => (Beyond, w')
    end.
Proof.
  intros Htool Hfile. unfold ffprobe. rewrite Htool.
  unfold bind at 1. unfold isfile. rewrite Hfile.
  rewrite bool_decide_eq_true_2 by eauto. simpl.
  unfold bind at 1.
  destruct (run_cmd E (ffprobe_cmd filename) false false w) as [[[out|]| |] w'];
    try reflexivity.
  destruct (length (strip out) =? 0)%nat; [reflexivity|].
  unfold bind, lift. destruct (json_loads (strip out)); reflexivity.
Qed.

(** X6: when the tool exits with status 0 and prints nothing but white
    space, [ffprobe] raises the error that names the file as somehow not
    valid; the tool was run once. *)
Theorem ffprobe_empty_output (E : env) (filename : str) (w : world)
    (output : bytes) (text : str) :
  which E (lit "ffprobe") <> None ->
  is_Some (files w !! filename) ->
  exec E (ffprobe_cmd filename) = Exited 0 output ->
  utf8_decode output = Some text ->
  forallb is_space text = true ->
  ffprobe E filename w
  = (Raise (Exception
              (filename
               ++ lit " is somehow not valid, so ffprobe could not extract anything")),
     after w [] [ffprobe_cmd filename]).
Proof.
  intros Htool [c Hfile] Hexec Hdec Hsp.
  destruct (which E (lit "ffprobe")) as [p|] eqn:Hp; [|congruence].
  rewrite (ffprobe_checked _ _ _ _ _ Hp Hfile).
  rewrite run_cmd_run, Hexec, Hdec. simpl.
  rewrite strip_spaces by assumption. simpl.
  unfold after. simpl. now rewrite !app_nil_r.
Qed.

Lemma ffprobe_empty_output_witness :
  ffprobe (printing_env (lit " " ++ nl)) (lit "a.mp4") sample_world
  = (Raise (Exception
              (lit "a.mp4 is somehow not valid, so ffprobe could not extract anything")),
     after sample_world [] [ffprobe_cmd (lit "a.mp4")]).
Proof.
  apply (ffprobe_empty_output (printing_env (lit " " ++ nl)) (lit "a.mp4")
           sample_world (lit " " ++ nl) (lit " " ++ nl)).
  - discriminate.
  - exists []. reflexivity.
  - reflexivity.
  - reflexivity.
  - reflexivity.
Defined.

(** X7: when the tool exits with a non-zero status (and prints UTF-8),
    [ffprobe] does not handle the error of [run_cmd]: the caller gets the
    exception with the nonzero-status message, the probing command and
    the tool's output; the tool was run once. *)
Theorem ffprobe_tool_failure (E : env) (filename : str) (w : world)
    (status : Z) (output : bytes) (text : str) :
  which E (lit "ffprobe") <> None ->
  is_Some (files w !! filename) ->
  exec E (ffprobe_cmd filename) = Exited status output ->
  status <> 0 ->
  utf8_decode output = Some text ->
  ffprobe E filename w
  = (Raise (Exception (lit "Nonzero return status running command "
                       ++ str_of_list E (ffprobe_cmd filename)
                       ++ lit ":" ++ nl ++ text)),
     after w [] [ffprobe_cmd filename]).
Proof.
  intros Htool [c Hfile] Hexec Hst Hdec.
  destruct (which E (lit "ffprobe")) as [p|] eqn:Hp; [|congruence].
  rewrite (ffprobe_checked _ _ _ _ _ Hp Hfile).
  rewrite run_cmd_run, Hexec, Hdec. simpl.
  apply Z.eqb_neq in Hst. rewrite Hst.
  unfold after. simpl. now rewrite !app_nil_r.
Qed.

Lemma ffprobe_tool_failure_witness :
  (ffprobe failing_env (lit "a.mp4") sample_world).1
  = Raise (Exception (lit "Nonzero return status running command "
                      ++ str_of_list failing_env (ffprobe_cmd (lit "a.mp4"))
                      ++ lit ":" ++ nl ++ lit "boom" ++ nl)).
Proof.
  refine (f_equal fst
            (ffprobe_tool_failure failing_env (lit "a.mp4") sample_world
               1 (lit "boom" ++ nl) (lit "boom" ++ nl) _ _ _ _ _)).
  - discriminate.
  - exists []. reflexivity.
  - reflexivity.
  - lia.
  - reflexivity.
Defined.




(** ** The media prober: errors and defaults of the extraction *)

(** The inner loop stops at the frame rate when its conversion fails. *)
Lemma inner_loop_raise stream names needed v e :
  In avg_frame_rate names ->
  dict_lookup (PStr avg_frame_rate) stream = Some v ->
  round_eval v = Raise e ->
  for_each (visit_field (PDict stream)) (map PStr names) needed = Raise e.
Proof.
  intros Hin Hv He. revert needed.
  induction names as [|a names IH]; intros needed; simpl; [contradiction|].
  rewrite visit_field_dict. unfold field_value.
  destruct (str_eqb a avg_frame_rate) eqn:E.
  - apply str_eqb_eq in E. subst a. rewrite Hv, He. reflexivity.
  - assert (Hin' : In avg_frame_rate names).
    { destruct Hin as [-> | H]; [|assumption].
      now rewrite str_eqb_refl in E. }
    destruct (dict_lookup (PStr a) stream); simpl; auto.
Qed.



(** X11: a parsed output without a [streams] entry makes the extraction
    raise [KeyError] for that key, and a parsed output that is no object
    (a list, a string, a number, [null]) makes it raise [TypeError]. *)
Theorem ffprobe_needs_streams (res : pyval) :
  (forall top, res = PDict top ->
               dict_lookup (PStr (lit "streams")) top = None ->
               ffprobe_needed res = Raise (KeyError (lit "streams")))
  /\ ((forall top, res <> PDict top) -> ffprobe_needed res = Raise TypeError).
Proof.
  split.
  - intros top -> H. unfold ffprobe_needed. simpl. now rewrite H.
  - intros H. destruct res as [| | | | | |d]; try reflexivity.
    now destruct (H d).
Qed.

Lemma ffprobe_needs_streams_witness :
  ffprobe_needed (PDict []) = Raise (KeyError (lit "streams"))
  /\ ffprobe_needed (PList []) = Raise TypeError.
Proof.
  split.
  - apply (ffprobe_needs_streams (PDict []) ) with (top := []); reflexivity.
  - apply (ffprobe_needs_streams (PList [])). discriminate.
Defined.

Lemma plain_rate_rounds v : plain_rate v -> exists x, round_eval v = Ok x.
Proof.
  intros (num & den & -> & Hden & Hnum). cbn [round_eval].
  rewrite eval_ratio_int_str.
  destruct (int_truediv_round num den Hden Hnum) as [f [-> _]]. simpl. eauto.
Qed.

Lemma outer_loop_total ss names needed :
  dict_keys needed = map PStr names ->
  Forall (fun stream =>
            forall v, dict_lookup (PStr avg_frame_rate) stream = Some v ->
                      exists x, round_eval v = Ok x) ss ->
  exists needed',
    for_each (fun needed stream =>
                for_each (visit_field stream) (dict_keys needed) needed)
             (map PDict ss) needed = Ok needed'.
Proof.
  intros Hkeys Hss. revert needed Hkeys.
  induction Hss as [|stream ss Hs _ IH]; intros needed Hkeys; simpl; [eauto|].
  rewrite Hkeys.
  destruct (inner_loop_total stream names needed Hs) as [n1 E].
  rewrite E. simpl. apply IH.
  rewrite <- Hkeys.
  apply (inner_loop_keys (PDict stream) (dict_keys needed)).
  - rewrite Hkeys. apply List.Forall_forall. intros k Hk.
    apply in_map_iff in Hk. destruct Hk as [x [<- _]]. eauto.
  - auto.
  - now rewrite Hkeys.
Qed.



(** X13: when the format section has a [bit_rate] or a [duration], the
    result's [bitrate] and [duration] are those values as the tool printed
    them, with no conversion to a number; and no result is returned when
    the format section is something else than an object. *)
Theorem ffprobe_format_entries (top d : items) (f : pyval) :
  ffprobe_needed (PDict top) = Ok d ->
  dict_lookup (PStr (lit "format")) top = Some f ->
  exists fmt,
    f = PDict fmt
    /\ (forall b, dict_lookup (PStr (lit "bit_rate")) fmt = Some b ->
                  dict_lookup (PStr (lit "bitrate")) d = Some b)
    /\ (forall x, dict_lookup (PStr (lit "duration")) fmt = Some x ->
                  dict_lookup (PStr (lit "duration")) d = Some x).
Proof.
  intros H Hf.
  destruct (ffprobe_needed_inv _ _ H)
    as (streams & needed & fmt & cn & pr & _ & _ & Hfmt & _ & _ & ->).
  simpl in Hfmt. rewrite Hf in Hfmt. injection Hfmt as ->.
  exists fmt. split; [reflexivity|]. split.
  - intros b ->. rewrite !dict_lookup_set_ne by discriminate.
    apply dict_lookup_set_eq.
  - intros x ->. rewrite !dict_lookup_set_ne by discriminate.
    apply dict_lookup_set_eq.
Qed.

Lemma ffprobe_format_entries_witness :
  exists d,
    ffprobe_needed audio_only_res = Ok d
    /\ dict_lookup (PStr (lit "bitrate")) d = Some (PStr (lit "128000"))
    /\ dict_lookup (PStr (lit "duration")) d = Some (PStr (lit "12.5")).
Proof.
  eexists. split; [vm_compute; reflexivity|].
  destruct (ffprobe_format_entries
              [ (PStr (lit "streams"), PList []);
                (PStr (lit "format"),
                 PDict [ (PStr (lit "duration"), PStr (lit "12.5"));
                         (PStr (lit "bit_rate"), PStr (lit "128000")) ]) ]
              _
              (PDict [ (PStr (lit "duration"), PStr (lit "12.5"));
                       (PStr (lit "bit_rate"), PStr (lit "128000")) ])
              ltac:(vm_compute; reflexivity) eq_refl)
    as (fmt & Hfmt & Hb & Hd).
  injection Hfmt as <-.
  split; [apply Hb | apply Hd]; reflexivity.
Defined.

(** A step of the inner loop keeps the frame-rate entry well formed. *)
Lemma visit_field_rate stream needed s needed' :
  rate_entry_ok needed ->
  visit_field stream needed (PStr s) = Ok needed' ->
  rate_entry_ok needed'.
Proof.
  intros Hok. unfold visit_field.
  destruct (py_in (PStr s) stream) as [[|]| |]; simpl; try easy;
    [|now intros [= <-]].
  destruct (getitem stream (PStr s)) as [v| |]; simpl; try easy.
  fold avg_frame_rate.
  destruct (str_eqb s avg_frame_rate) eqn:E.
  - apply str_eqb_eq in E. subst s.
    rewrite dict_lookup_set_eq. simpl.
    destruct (round_eval v) as [x| |] eqn:Hx; simpl; try easy.
    intros [= <-]. apply round_eval_int in Hx as [r ->].
    right. exists r. apply dict_lookup_set_eq.
  - intros [= <-]. unfold rate_entry_ok.
    rewrite dict_lookup_set_ne; [assumption|].
    intros ->. now rewrite str_eqb_refl in E.
Qed.

Lemma inner_loop_rate stream ks needed needed' :
  str_keys ks ->
  rate_entry_ok needed ->
  for_each (visit_field stream) ks needed = Ok needed' ->
  rate_entry_ok needed'.
Proof.
  intros Hstr. revert needed.
  induction Hstr as [|k ks [s ->] _ IH]; intros needed Hok; simpl.
  - now intros [= <-].
  - destruct (visit_field stream needed (PStr s)) as [n1| |] eqn:E; simpl;
      try easy.
    apply IH. eapply visit_field_rate; eauto.
Qed.

Lemma outer_loop_rate streams needed needed' :
  str_keys (dict_keys needed) ->
  rate_entry_ok needed ->
  for_each (fun needed stream =>
              for_each (visit_field stream) (dict_keys needed) needed)
           streams needed = Ok needed' ->
  rate_entry_ok needed'.
Proof.
  revert needed. induction streams as [|stream streams IH];
    intros needed Hstr Hok; simpl.
  - now intros [= <-].
  - destruct (for_each (visit_field stream) (dict_keys needed) needed)
      as [n1| |] eqn:E; simpl; try easy.
    apply IH.
    + rewrite (inner_loop_keys _ _ _ _ Hstr (fun k H => H) E). assumption.
    + eapply inner_loop_rate; eauto.
Qed.



(** ** JSON persistence: the file and nothing else *)

Lemma json_store_unfold E p v w :
  json_store E p v w
  = if can_create E p
    then ((iterencode v 0).2, stored w p (iterencode v 0).1)
    else (Raise (OSError p), w).
Proof.
  unfold json_store, bind, open_w, json_dump, stored.
  destruct (can_create E p); [|reflexivity].
  cbn [files stdout logged spawned].
  destruct (iterencode v 0) as [t r]. reflexivity.
Qed.



(** X16: a store that fails leaves no file as it was.  When the path
    cannot be opened for writing the error of [open] is raised and nothing
    changes; when the value cannot be encoded the error is raised after the
    file was emptied, and the file holds the text written before the
    error instead of its former content. *)
Theorem json_store_failure (E : env) (p : str) (v : pyval) (w : world) :
  (can_create E p = false -> json_store E p v w = (Raise (OSError p), w))
  /\ (forall e,
        can_create E p = true ->
        (iterencode v 0).2 = Raise e ->
        (json_store E p v w).1 = Raise e
        /\ files (json_store E p v w).2 !! p = Some (iterencode v 0).1).
Proof.
  rewrite json_store_unfold. split.
  - now intros ->.
  - intros e -> He. simpl. split; [assumption|]. apply lookup_insert_eq.
Qed.

Lemma json_store_failure_witness :
  (json_load (lit "out.json") stored_world).1 = Ok (PList [])
  /\ (json_store sample_env (lit "out.json") tuple_keyed stored_world).1
     = Raise TypeError
  /\ files (json_store sample_env (lit "out.json") tuple_keyed stored_world).2
       !! lit "out.json"
     = Some (lit "{" ++ nl ++ lit "    ").
Proof.
  split; [reflexivity|].
  apply (json_store_failure sample_env (lit "out.json") tuple_keyed stored_world);
    reflexivity.
Defined.

(** X17: [json_load] raises the error of [open] for a path that is no
    file, and the decoding error for a file that is empty or holds only
    white space; the state is left as it was. *)
Theorem json_load_unreadable (path : str) (w : world) :
  (files w !! path = None -> json_load path w = (Raise (OSError path), w))
  /\ (forall text : str,
        files w !! path = Some text ->
        forallb is_ws text = true ->
        json_load path w = (Raise JSONDecodeError, w)).
Proof.
  unfold json_load. split.
  - now intros ->.
  - intros text -> Hws. f_equal. unfold json_loads.
    assert (Hskip : skip_ws text = []).
    { induction text as [|c t IH]; [reflexivity|]. simpl in *.
      apply andb_true_iff in Hws as [-> Ht]. auto. }
    assert (Hbom : starts_with [65279%N] text = false).
    { destruct text as [|c t]; [reflexivity|]. cbn [forallb] in Hws.
      apply andb_true_iff in Hws as [Hc _]. cbn [starts_with].
      destruct (N.eqb_spec 65279 c) as [<-|]; [discriminate|reflexivity]. }
    rewrite Hbom, Hskip. reflexivity.
Qed.

Lemma json_load_unreadable_witness :
  json_load (lit "out.json") empty_world
  = (Raise (OSError (lit "out.json")), empty_world)
  /\ json_load (lit "a.mp4") sample_world
     = (Raise JSONDecodeError, sample_world).
Proof.
  split.
  - apply (json_load_unreadable (lit "out.json") empty_world). reflexivity.
  - apply (json_load_unreadable (lit "a.mp4") sample_world) with (text := []);
      reflexivity.
Defined.

(** ** JSON persistence: the order of the keys *)

Lemma str_ltb_irrefl a : str_ltb a a = false.
Proof.
  induction a as [|x a IH]; [reflexivity|]. simpl.
  now rewrite N.ltb_irrefl, N.eqb_refl, IH.
Qed.

Lemma str_ltb_cons x a y b :
  str_ltb (x :: a) (y :: b) = true
  <-> (x < y)%N \/ (x = y /\ str_ltb a b = true).
Proof.
  simpl. now rewrite orb_true_iff, andb_true_iff, N.ltb_lt, N.eqb_eq.
Qed.

Lemma str_ltb_trans a b c :
  str_ltb a b = true -> str_ltb b c = true -> str_ltb a c = true.
Proof.
  revert b c. induction a as [|x a IH]; intros [|y b] [|z c]; try easy.
  rewrite !str_ltb_cons. intros [H1 | [-> H1]] [H2 | [-> H2]].
  - left. lia.
  - now left.
  - now left.
  - right. split; [reflexivity|]. eauto.
Qed.

Lemma str_ltb_total a b :
  a <> b -> str_ltb a b = true \/ str_ltb b a = true.
Proof.
  revert b. induction a as [|x a IH]; intros [|y b] Hne; try easy.
  - now left.
  - now right.
  - rewrite !str_ltb_cons.
    destruct (N.lt_trichotomy x y) as [H | [-> | H]]; [tauto| |tauto].
    destruct (IH b) as [H | H]; [congruence|tauto|tauto].
Qed.

Lemma key_lt_trans {A} (x y z : pyval * A) :
  key_lt x y -> key_lt y z -> key_lt x z.
Proof.
  intros (s & t & Hs & Ht & H1) (t' & u & Ht' & Hu & H2).
  rewrite Ht in Ht'. injection Ht' as <-.
  exists s, u. eauto using str_ltb_trans.
Qed.

Lemma key_lt_asym {A} (x y : pyval * A) : key_lt x y -> key_lt y x -> False.
Proof.
  intros H1 H2. pose proof (key_lt_trans _ _ _ H1 H2) as (s & t & Hs & Ht & H).
  rewrite Hs in Ht. injection Ht as <-. now rewrite str_ltb_irrefl in H.
Qed.

Lemma insert_item_ascending {A} (x : pyval * A) l l' :
  (exists s, x.1 = PStr s) -> str_keyed l -> ascending l ->
  ~ In x.1 (map fst l) ->
  insert_item x l = Ok l' ->
  ascending l'.
Proof.
  intros [s Hs] Hl. revert l'.
  induction Hl as [|y l [t Ht] Hl IH]; intros l' Hasc Hfresh; simpl.
  - intros [= <-]. simpl. auto.
  - rewrite Hs, Ht. cbn [py_lt rbind]. destruct Hasc as [Hy Hasc].
    destruct (str_ltb s t) eqn:Hlt.
    + intros [= <-]. cbn [ascending]. repeat split; auto.
      assert (Hxy : key_lt x y) by (exists s, t; auto).
      constructor; [assumption|].
      eapply List.Forall_impl; [|exact Hy].
      intros z Hz. eapply key_lt_trans; eauto.
    + destruct (insert_item_str x l (ex_intro _ s Hs) Hl) as [r [Hr Hp]].
      rewrite Hr. cbn [rbind]. intros [= <-]. cbn [ascending]. split.
      * rewrite Hp. constructor; [|assumption].
        assert (Hne : t <> s).
        { intros ->. apply Hfresh. simpl. left. congruence. }
        destruct (str_ltb_total t s Hne) as [H | H]; [|congruence].
        exists t, s. auto.
      * apply IH; auto. intros Hin. apply Hfresh. simpl. now right.
Qed.

Lemma sorted_items_ascending {A} (l s : list (pyval * A)) :
  str_keyed l -> List.NoDup (map fst l) ->
  sorted_items l = Ok s ->
  ascending s.
Proof.
  intros Hl. revert s. induction Hl as [|x l Hx Hl IH]; intros s Hnd; simpl.
  - now intros [= <-].
  - apply List.NoDup_cons_iff in Hnd as [Hfresh Hnd].
    destruct (sorted_items_str l Hl) as [s0 [Hs0 Hp]]. rewrite Hs0.
    cbn [rbind]. apply insert_item_ascending; auto.
    + unfold str_keyed. now rewrite Hp.
    + intros Hin. apply Hfresh.
      eapply Permutation_in; [|exact Hin]. now apply Permutation_map.
Qed.

Lemma ascending_unique {A} (l1 l2 : list (pyval * A)) :
  ascending l1 -> ascending l2 -> Permutation l1 l2 -> l1 = l2.
Proof.
  revert l2. induction l1 as [|a r1 IH]; intros l2 H1 H2 Hp.
  - now apply Permutation_nil in Hp.
  - destruct l2 as [|b r2].
    { symmetry in Hp. now apply Permutation_nil in Hp. }
    destruct H1 as [Ha H1], H2 as [Hb H2].
    assert (Hab : a = b).
    { assert (Hin1 : In a (b :: r2))
        by (eapply Permutation_in; [exact Hp | now left]).
      assert (Hin2 : In b (a :: r1))
        by (eapply Permutation_in; [symmetry; exact Hp | now left]).
      destruct Hin1 as [-> | Hin1]; [reflexivity|].
      destruct Hin2 as [-> | Hin2]; [reflexivity|].
      rewrite List.Forall_forall in Ha, Hb.
      destruct (key_lt_asym a b); auto. }
    subst b. f_equal. apply IH; auto.
    now apply Permutation_cons_inv in Hp.
Qed.

(** [sorted] gives the same list for the items in any order. *)
Lemma sorted_items_perm {A} (l1 l2 : list (pyval * A)) :
  Permutation l1 l2 -> str_keyed l1 -> List.NoDup (map fst l1) ->
  sorted_items l1 = sorted_items l2.
Proof.
  intros Hp Hl1 Hnd1.
  assert (Hl2 : str_keyed l2) by (unfold str_keyed; now rewrite <- Hp).
  assert (Hnd2 : List.NoDup (map fst l2)).
  { eapply Permutation_NoDup; [|exact Hnd1]. now apply Permutation_map. }
  destruct (sorted_items_str l1 Hl1) as [s1 [E1 P1]].
  destruct (sorted_items_str l2 Hl2) as [s2 [E2 P2]].
  rewrite E1, E2. f_equal.
  apply ascending_unique.
  - now apply (sorted_items_ascending l1).
  - now apply (sorted_items_ascending l2).
  - now rewrite P1, P2.
Qed.

Lemma str_keyed_pmap {A B} (f : A -> B) l : str_keyed l -> str_keyed (pmap f l).
Proof.
  unfold str_keyed, pmap. intros H. apply List.Forall_map.
  eapply List.Forall_impl; [|exact H]. auto.
Qed.

Lemma map_fst_pmap {A B} (f : A -> B) l : map fst (pmap f l) = map fst l.
Proof. unfold pmap. rewrite map_map. reflexivity. Qed.

(** X18: the file [json_store] writes for a mapping with string keys
    does not depend on the order in which the mapping holds its items:
    two mappings with the same items give the same outcome and the same
    file. *)
Theorem json_store_key_order (E : env) (p : str) (d1 d2 : items) (w : world) :
  Permutation d1 d2 ->
  str_keyed d1 ->
  List.NoDup (map fst d1) ->
  json_store E p (PDict d1) w = json_store E p (PDict d2) w.
Proof.
  intros Hp Hstr Hnd.
  assert (Henc : forall level,
             iterencode (PDict d1) level = iterencode (PDict d2) level).
  { intros level. rewrite !iterencode_dict.
    rewrite (sorted_items_perm (pmap (fun v => iterencode v (S level)) d1)
               (pmap (fun v => iterencode v (S level)) d2)).
    - destruct d1 as [|x d1].
      + apply Permutation_nil in Hp. now subst d2.
      + destruct d2 as [|y d2]; [|reflexivity].
        symmetry in Hp. now apply Permutation_nil in Hp.
    - unfold pmap. now apply Permutation_map.
    - now apply str_keyed_pmap.
    - now rewrite map_fst_pmap. }
  rewrite !json_store_unfold, Henc. reflexivity.
Qed.

Lemma json_store_key_order_witness :
  json_store sample_env (lit "out.json") sample_mapping empty_world
  = json_store sample_env (lit "out.json") sample_mapping_reordered empty_world.
Proof.
  apply (json_store_key_order sample_env (lit "out.json")
           [ (PStr (lit "width"), PInt 1920);
             (PStr (lit "codec"), PStr (lit "h264"));
             (PStr (lit "rates"), PList [ PInt 30; PInt (-1); PNone ]);
             (PStr (lit "flags"), PDict [ (PStr (lit "hdr"), PBool false) ]) ]
           [ (PStr (lit "flags"), PDict [ (PStr (lit "hdr"), PBool false) ]);
             (PStr (lit "rates"), PList [ PInt 30; PInt (-1); PNone ]);
             (PStr (lit "width"), PInt 1920);
             (PStr (lit "codec"), PStr (lit "h264")) ]
           empty_world).
  - apply (Permutation_trans
             (l' := [ (PStr (lit "rates"), PList [ PInt 30; PInt (-1); PNone ]);
                      (PStr (lit "flags"), PDict [ (PStr (lit "hdr"), PBool false) ]);
                      (PStr (lit "width"), PInt 1920);
                      (PStr (lit "codec"), PStr (lit "h264")) ])).
    + apply (Permutation_app_comm
               [ (PStr (lit "width"), PInt 1920);
                 (PStr (lit "codec"), PStr (lit "h264")) ]
               [ (PStr (lit "rates"), PList [ PInt 30; PInt (-1); PNone ]);
                 (PStr (lit "flags"), PDict [ (PStr (lit "hdr"), PBool false) ]) ]).
    + apply perm_swap.
  - repeat constructor; eexists; reflexivity.
  - repeat (constructor; [simpl; intuition discriminate|]). constructor.
Defined.

(** ** JSON persistence: the text written *)

Lemma sorted_items_id {A} (l : list (pyval * A)) :
  str_keyed l -> ascending l -> sorted_items l = Ok l.
Proof.
  intros Hl. induction Hl as [|x l [s Hs] Hl IH]; intros Hasc; [reflexivity|].
  destruct Hasc as [Hx Hasc]. cbn [sorted_items]. rewrite IH by assumption.
  cbn [rbind]. destruct l as [|y l]; [reflexivity|].
  apply List.Forall_inv in Hx. destruct Hx as (s' & t & Hs' & Ht & Hlt).
  cbn [insert_item]. rewrite Hs', Ht. cbn [py_lt rbind]. now rewrite Hlt.
Qed.

Lemma ascending_pmap {A B} (f : A -> B) l : ascending l -> ascending (pmap f l).
Proof.
  induction l as [|x l IH]; [easy|]. intros [Hx Hasc]. split; [|auto].
  apply List.Forall_map. eapply List.Forall_impl; [|exact Hx].
  intros y (s & t & Hs & Ht & Hlt). exists s, t. auto.
Qed.

Lemma pmap_pmap {A B C} (f : A -> B) (g : B -> C) l :
  pmap g (pmap f l) = pmap (fun a => g (f a)) l.
Proof. unfold pmap. rewrite map_map. reflexivity. Qed.

Lemma iterencode_tuple l level :
  iterencode (PTuple l) level = iterencode (PList l) level.
Proof. destruct l; reflexivity. Qed.

(** What is loaded back is written as the value itself was. *)
Lemma iterencode_canon v :
  json_native v = true ->
  forall level, iterencode (canon v) level = iterencode v level.
Proof.
  induction v as [| | | |l IH|l IH|d IH] using pyval_nested_ind;
    intros Hn level; try reflexivity.
  - cbn [canon]. rewrite !iterencode_list.
    assert (Hmap : forall k, map (fun v => iterencode v k) (map canon l)
                             = map (fun v => iterencode v k) l).
    { intros k. rewrite map_map. apply List.map_ext_in. intros x Hx.
      rewrite List.Forall_forall in IH. apply IH; [assumption|].
      cbn [json_native] in Hn. rewrite forallb_forall in Hn. auto. }
    destruct l as [|x l]; [reflexivity|].
    change (map canon (x :: l)) with (canon x :: map canon l).
    cbv iota. now rewrite Hmap.
  - destruct (native_dict_parts d Hn) as [Hparts Hnd].
    assert (Hstr : str_keyed d).
    { eapply List.Forall_impl; [|exact Hparts].
      intros kv [[s [Hs _]] _]. eauto. }
    change (canon (PDict d))
      with (PDict (match sorted_items (pmap canon d) with
                   | Ok s => s
                   | _ => []
                   end)).
    destruct (sorted_items_str (pmap canon d) (str_keyed_pmap canon d Hstr))
      as [s [Es Ps]].
    rewrite Es. rewrite !iterencode_dict.
    assert (Hasc : ascending s).
    { apply (sorted_items_ascending (pmap canon d)); auto.
      - now apply str_keyed_pmap.
      - now rewrite map_fst_pmap. }
    assert (Hs : str_keyed s).
    { unfold str_keyed. rewrite Ps. now apply str_keyed_pmap. }
    assert (Hext : pmap (fun v => iterencode v (S level)) d
                   = pmap (fun v => iterencode v (S level)) (pmap canon d)).
    { rewrite pmap_pmap. unfold pmap. apply List.map_ext_in. intros kv Hkv.
      rewrite List.Forall_forall in IH, Hparts.
      rewrite IH; [reflexivity|assumption|]. now apply Hparts. }
    rewrite Hext.
    rewrite (sorted_items_pmap (fun v => iterencode v (S level)) _ _ Es).
    rewrite (sorted_items_id (pmap (fun v => iterencode v (S level)) s))
      by (auto using str_keyed_pmap, ascending_pmap).
    destruct d as [|x d].
    + cbn in Es. injection Es as <-. reflexivity.
    + destruct s as [|y s]; [|reflexivity].
      apply Permutation_nil in Ps. discriminate.
Qed.



Lemma ascii_text_app a b : ascii_text a -> ascii_text b -> ascii_text (a ++ b).
Proof. intros Ha Hb. apply List.Forall_app. now split. Qed.

Lemma hex_ascii width n : ascii_text (hex width n).
Proof.
  revert n. induction width as [|k IH]; intros n; [constructor|].
  cbn [hex]. apply ascii_text_app; [apply IH|].
  constructor; [|constructor]. unfold hex_digit.
  pose proof (N.mod_upper_bound n 16 ltac:(lia)) as Hlt.
  change (chr "0") with 48%N. change (chr "a") with 97%N.
  destruct (N.ltb_spec (n mod 16) 10); lia.
Qed.

Lemma escape_char_ascii c : ascii_text (escape_char c).
Proof.
  unfold escape_char.
  repeat match goal with
         | |- ascii_text (if N.eqb ?a ?b then _ else _) =>
             destruct (N.eqb a b); [repeat constructor|]
         end.
  destruct (in_range 32 126 c) eqn:Hr.
  - unfold in_range in Hr. apply andb_true_iff in Hr as [_ Hr].
    apply N.leb_le in Hr. constructor; [lia|constructor].
  - destruct (c <? 65536)%N;
      repeat first [ apply hex_ascii
                   | apply ascii_text_app
                   | constructor; [reflexivity|]
                   | constructor ].
Qed.

Lemma encode_basestring_ascii_ascii s : ascii_text (encode_basestring_ascii s).
Proof.
  unfold encode_basestring_ascii.
  apply ascii_text_app; [repeat constructor|].
  apply ascii_text_app; [|repeat constructor].
  induction s as [|c s IH]; [constructor|].
  cbn [flat_map]. apply ascii_text_app; [apply escape_char_ascii | exact IH].
Qed.

Lemma int_str_ascii i : ascii_text (int_str i).
Proof.
  unfold int_str. apply ascii_text_app.
  - destruct (i <? 0); repeat constructor.
  - pose proof (digits_of_all_digits
                  (S (N.to_nat (N.log2 (Z.to_N (Z.abs i))))) (Z.to_N (Z.abs i)))
      as H.
    rewrite forallb_forall in H. apply List.Forall_forall. intros c Hc.
    apply H in Hc. apply is_digit_spec in Hc. lia.
Qed.

Lemma newline_indent_ascii level : ascii_text (newline_indent level).
Proof.
  unfold newline_indent. apply ascii_text_app; [repeat constructor|].
  induction (4 * level)%nat as [|k IH]; [constructor|].
  constructor; [reflexivity|exact IH].
Qed.

Lemma emit_then_ascii (a b : emit) :
  ascii_text a.1 -> ascii_text b.1 -> ascii_text (emit_then a b).1.
Proof.
  destruct a as [t [[]| |]]; simpl; auto. intros. now apply ascii_text_app.
Qed.

Lemma emit_elems_ascii level first es :
  Forall (fun e : emit => ascii_text e.1) es ->
  ascii_text (emit_elems level first es).1.
Proof.
  intros H. revert first. induction H as [|e es He _ IH]; intros first;
    [constructor|].
  cbn [emit_elems]. apply emit_then_ascii; [|apply IH].
  apply emit_then_ascii; [|exact He].
  cbn [emit_text fst]. apply ascii_text_app; [|apply newline_indent_ascii].
  destruct first; repeat constructor.
Qed.

Lemma emit_items_ascii level first (l : list (pyval * emit)) :
  Forall (fun kv => ascii_text kv.2.1) l ->
  ascii_text (emit_items level first l).1.
Proof.
  intros H. revert first. induction H as [|[k e] l He _ IH]; intros first;
    [constructor|].
  cbn [emit_items]. apply emit_then_ascii; [|apply IH].
  unfold emit_item. destruct (key_str k) as [t| |]; try constructor.
  apply emit_then_ascii; [|exact He]. cbn [emit_text fst].
  apply ascii_text_app; [|apply ascii_text_app].
  - destruct first; [constructor|].
    apply ascii_text_app; [repeat constructor | apply newline_indent_ascii].
  - apply encode_basestring_ascii_ascii.
  - repeat constructor.
Qed.

Lemma insert_item_Forall {A} (P : pyval * A -> Prop) x l l' :
  insert_item x l = Ok l' -> P x -> Forall P l -> Forall P l'.
Proof.
  intros H Hx Hl. revert l' H.
  induction Hl as [|y l Hy Hl IH]; intros l'; simpl.
  - intros [= <-]. auto.
  - destruct (py_lt x.1 y.1) as [[|]| |]; simpl; try easy.
    + intros [= <-]. auto.
    + destruct (insert_item x l) as [r| |]; simpl; try easy.
      intros [= <-]. auto.
Qed.

Lemma sorted_items_Forall {A} (P : pyval * A -> Prop) l s :
  sorted_items l = Ok s -> Forall P l -> Forall P s.
Proof.
  intros H Hl. revert s H. induction Hl as [|x l Hx Hl IH]; intros s; simpl.
  - now intros [= <-].
  - destruct (sorted_items l) as [s0| |]; simpl; try easy.
    intros H. eapply insert_item_Forall; eauto.
Qed.

Lemma iterencode_ascii v : forall level, ascii_text (iterencode v level).1.
Proof.
  induction v as [|b|i|s|l IH|l IH|d IH] using pyval_nested_ind; intros level.
  - repeat constructor.
  - destruct b; repeat constructor.
  - apply int_str_ascii.
  - apply encode_basestring_ascii_ascii.
  - rewrite iterencode_list. destruct l as [|x l]; [repeat constructor|].
    apply emit_then_ascii.
    + apply emit_elems_ascii. apply List.Forall_map.
      eapply List.Forall_impl; [|exact IH]. auto.
    + cbn [emit_text fst].
      apply ascii_text_app; [apply newline_indent_ascii | repeat constructor].
  - rewrite iterencode_tuple, iterencode_list.
    destruct l as [|x l]; [repeat constructor|].
    apply emit_then_ascii.
    + apply emit_elems_ascii. apply List.Forall_map.
      eapply List.Forall_impl; [|exact IH]. auto.
    + cbn [emit_text fst].
      apply ascii_text_app; [apply newline_indent_ascii | repeat constructor].
  - rewrite iterencode_dict. destruct d as [|x d]; [repeat constructor|].
    apply emit_then_ascii.
    + cbn [emit_text fst].
      apply ascii_text_app; [repeat constructor | apply newline_indent_ascii].
    + destruct (sorted_items _) as [s| |] eqn:Es; try constructor.
      apply emit_then_ascii.
      * apply emit_items_ascii.
        apply (sorted_items_Forall _ _ _ Es).
        unfold pmap. apply List.Forall_map.
        eapply List.Forall_impl; [|exact IH].
        intros kv Hkv. apply Hkv.
      * cbn [emit_text fst].
        apply ascii_text_app; [apply newline_indent_ascii | repeat constructor].
Qed.

(** X20: whatever value [json_store] is given, the text it leaves in
    the file is ASCII: every character outside ASCII in a string or a key
    is written as an escape, also in the text left by a store that
    fails. *)
Theorem json_store_ascii (E : env) (p : str) (v : pyval) (w : world)
    (text : str) :
  can_create E p = true ->
  files (json_store E p v w).2 !! p = Some text ->
  Forall (fun c => (c < 128)%N) text.
Proof.
  intros Hp. rewrite json_store_unfold, Hp. unfold stored. cbn [snd files].
  rewrite lookup_insert_eq. intros [= <-]. apply iterencode_ascii.
Qed.

Lemma json_store_ascii_witness :
  Forall (fun c => (c < 128)%N)
    (lit "{" ++ nl ++ lit "    " ++ [dq] ++ lit "caf" ++ [backslash]
     ++ lit "u00e9" ++ [dq] ++ lit ": 1" ++ nl ++ lit "}").
Proof.
  apply (json_store_ascii sample_env (lit "out.json")
           (PDict [ (PStr (lit "caf" ++ [233%N]), PInt 1) ]) empty_world);
    reflexivity.
Defined.

(** ** The media prober: what the result depends on *)

Lemma inner_loop_same s1 s2 names needed :
  (forall n, In n names -> dict_lookup (PStr n) s1 = dict_lookup (PStr n) s2) ->
  for_each (visit_field (PDict s1)) (map PStr names) needed
  = for_each (visit_field (PDict s2)) (map PStr names) needed.
Proof.
  revert needed. induction names as [|a names IH]; intros needed H;
    [reflexivity|].
  cbn [map for_each]. rewrite !visit_field_dict.
  rewrite (H a) by now left.
  destruct (dict_lookup (PStr a) s2) as [v|]; cbn [rbind].
  - destruct (field_value a v) as [x| |]; cbn [rbind]; try reflexivity.
    apply IH. intros n Hn. apply H. now right.
  - apply IH. intros n Hn. apply H. now right.
Qed.

Lemma outer_loop_same ss1 ss2 needed :
  Forall2 same_fields ss1 ss2 ->
  dict_keys needed = map PStr field_names ->
  for_each (fun needed stream =>
              for_each (visit_field stream) (dict_keys needed) needed)
           (map PDict ss1) needed
  = for_each (fun needed stream =>
                for_each (visit_field stream) (dict_keys needed) needed)
             (map PDict ss2) needed.
Proof.
  intros H. revert needed.
  induction H as [|s1 s2 ss1 ss2 Hs _ IH]; intros needed Hkeys; [reflexivity|].
  cbn [map for_each]. rewrite Hkeys.
  rewrite (inner_loop_same s1 s2 field_names needed Hs).
  destruct (for_each (visit_field (PDict s2)) (map PStr field_names) needed)
    as [n1| |] eqn:E; cbn [rbind]; try reflexivity.
  apply IH. rewrite <- Hkeys.
  apply (inner_loop_keys (PDict s2) (dict_keys needed)).
  - rewrite Hkeys. apply List.Forall_forall. intros k Hk.
    apply in_map_iff in Hk. destruct Hk as [x [<- _]]. eauto.
  - auto.
  - now rewrite Hkeys.
Qed.



(** ** JSON persistence: the order of what is loaded *)


